(** * Tic Tac Toe (React front end): the game core of [App.js]

    A shallow embedding of the logic of
    [tic_tac_toe_frontend/src/App.js]: the win detector
    [calculateWinner], the heuristic opponent [chooseBestMove], and the
    [Game] component's state, handlers and effects.

    Conventions of the embedding.
    - A square read from a board is a JavaScript value: [null], one of the
      strings ['X'] / ['O'], or [undefined] (what an array read past its
      end, or a hole, yields).
    - A board is a JavaScript array, modelled as a list; reads are total
      ([get] yields [Undefined] out of range) and a write past the end
      extends the array, as in JavaScript.
    - Array indices are natural numbers. The sentinel [-1] that
      [findWinningMove] and [chooseBestMove] return for "no move" is
      [None]; an index [i] is [Some i]. *)

From stdpp Require Import base decidable option list strings.
From Stdlib Require Import Lia PeanoNat.
From Stdlib Require DecimalString.

(** ** Values and boards *)

Inductive mark : Set := X | O.

#[global] Instance mark_eq_dec : EqDecision mark.
Proof. solve_decision. Defined.

Inductive value : Set :=
| Null
| Undefined
| Str (m : mark).

#[global] Instance value_eq_dec : EqDecision value.
Proof. solve_decision. Defined.

(** JavaScript truthiness of a square: only the two non-empty strings. *)
Definition truthy (v : value) : bool :=
  match v with
  | Str _ => true
  | Null | Undefined => false
  end.

(** [v === w] on squares. *)
Definition strict_eq (v w : value) : bool := bool_decide (v = w).

(** [squares[i]]. *)
Definition get (squares : list value) (i : nat) : value :=
  default Undefined (squares !! i).

(** [squares[i] = v] on an array: in range it overwrites, past the end it
    grows the array, leaving holes (which read as [undefined]). *)
Definition set (squares : list value) (i : nat) (v : value) : list value :=
  if decide (i < length squares) then <[i := v]> squares
  else squares ++ replicate (i - length squares) Undefined ++ [v].

(** [Array(9).fill(null)]. *)
Definition emptyBoard : list value := replicate 9 Null.

(** ** Winner calculation *)

Definition triple : Set := nat * nat * nat.

Definition LINES : list triple :=
  [ (0, 1, 2); (3, 4, 5); (6, 7, 8);   (* rows *)
    (0, 3, 6); (1, 4, 7); (2, 5, 8);   (* cols *)
    (0, 4, 8); (2, 4, 6) ].            (* diags *)

Record WinnerInfo : Set := mkWinnerInfo {
  winner : value;
  line : option triple
}.

(** The body of the [for (const [a, b, c] of LINES)] loop of
    [calculateWinner], over the lines still to visit. *)
Fixpoint calculateWinner_loop (lines : list triple) (squares : list value)
  : WinnerInfo :=
  match lines with
  | [] => {| winner := Null; line := None |}
  | (a, b, c) :: rest =>
      if truthy (get squares a)
         && strict_eq (get squares a) (get squares b)
         && strict_eq (get squares a) (get squares c)
      then {| winner := get squares a; line := Some (a, b, c) |}
      else calculateWinner_loop rest squares
  end.

Definition calculateWinner (squares : list value) : WinnerInfo :=
  calculateWinner_loop LINES squares.

(** *** Specification vocabulary for the win detector *)

(** The three cells of a triple all hold the mark [m]. *)
Definition holds (squares : list value) (l : triple) (m : mark) : Prop :=
  let '(a, b, c) := l in
  get squares a = Str m /\ get squares b = Str m /\ get squares c = Str m.

(** The three cells of a triple are non-empty and identical. *)
Definition complete (squares : list value) (l : triple) : Prop :=
  exists m, holds squares l m.

(** [l] is the complete triple of lowest index [j] in [lines]. *)
Definition first_complete (lines : list triple) (squares : list value)
    (j : nat) (l : triple) : Prop :=
  lines !! j = Some l /\
  complete squares l /\
  forall k l', k < j -> lines !! k = Some l' -> ~ complete squares l'.

(** The board that holds [m] on the three cells of [l] and nothing else. *)
Definition only_line (m : mark) (l : triple) : list value :=
  let '(a, b, c) := l in
  set (set (set emptyBoard a (Str m)) b (Str m)) c (Str m).

(** ** The heuristic opponent *)

(** One iteration of the loop of [findWinningMove] is decided by
    [filledByPlayer === 2 && emptyIndices.length === 1]; the loop returns
    [emptyIndices[0]] at the first triple that passes. *)
Fixpoint findWinningMove_loop (lines : list triple) (squares : list value)
    (player : mark) : option nat :=
  match lines with
  | [] => None
  | (a, b, c) :: rest =>
      let line := [get squares a; get squares b; get squares c] in
      let filledByPlayer := length (filter (fun v => v = Str player) line) in
      let emptyIndices := filter (fun idx => get squares idx = Null) [a; b; c] in
      if bool_decide (filledByPlayer = 2)
         && bool_decide (length emptyIndices = 1)
      then emptyIndices !! 0
      else findWinningMove_loop rest squares player
  end.

Definition findWinningMove (squares : list value) (player : mark)
  : option nat :=
  findWinningMove_loop LINES squares player.

(** A result of [Math.random()]: a number [u] with [0 <= u < 1]. It is
    kept as the exact fraction [rnum / (rnum + rgap + 1)], which ranges
    over all the rationals of that interval. *)
Record random : Set := mkRandom {
  rnum : nat;
  rgap : nat
}.

(** [Math.floor(u * n)]. *)
Definition floor_mul (u : random) (n : nat) : nat :=
  (rnum u * n) / (rnum u + rgap u + 1).

(** [arr[Math.floor(Math.random() * arr.length)]]. *)
Definition randomPick (u : random) (arr : list nat) : option nat :=
  arr !! floor_mul u (length arr).

(** [player === 'X' ? 'O' : 'X']. *)
Definition opponent_of (player : mark) : mark :=
  match player with
  | X => O
  | O => X
  end.

Definition chooseBestMove (squares : list value) (player : mark)
    (u : random) : option nat :=
  let opponent := opponent_of player in
  match findWinningMove squares player with
  | Some winMove => Some winMove
  | None =>
      match findWinningMove squares opponent with
      | Some blockMove => Some blockMove
      | None =>
          if negb (truthy (get squares 4)) then Some 4
          else
            let corners :=
              filter (fun i => truthy (get squares i) = false) [0; 2; 6; 8] in
            if negb (bool_decide (length corners = 0))
            then randomPick u corners
            else
              let sides :=
                filter (fun i => truthy (get squares i) = false) [1; 3; 5; 7] in
              if negb (bool_decide (length sides = 0))
              then randomPick u sides
              else None
      end
  end.

(** *** Specification vocabulary for the opponent *)

(** A board as the game builds it: nine cells, each [null] or a mark. *)
Definition wellFormed (squares : list value) : Prop :=
  length squares = 9 /\ forall i, i < 9 -> get squares i <> Undefined.

(** The win/block sub-check as the specification words it: exactly two of
    the three cells hold [m] and the third is empty; the candidate is the
    index of the empty one. *)
Definition candidate (squares : list value) (m : mark) (l : triple)
  : option nat :=
  let '(a, b, c) := l in
  match get squares a, get squares b, get squares c with
  | Null, Str p, Str q => if decide (p = m /\ q = m) then Some a else None
  | Str p, Null, Str q => if decide (p = m /\ q = m) then Some b else None
  | Str p, Str q, Null => if decide (p = m /\ q = m) then Some c else None
  | _, _, _ => None
  end.

(** First candidate in canonical line order. *)
Fixpoint first_candidate (lines : list triple) (squares : list value)
    (m : mark) : option nat :=
  match lines with
  | [] => None
  | l :: rest =>
      match candidate squares m l with
      | Some i => Some i
      | None => first_candidate rest squares m
      end
  end.

(** Placing [m] on the empty cell [i] completes one of the eight lines. *)
Definition completes (squares : list value) (m : mark) (i : nat) : Prop :=
  get squares i = Null /\
  exists l, l ∈ LINES /\ i ∈ [l.1.1; l.1.2; l.2] /\
            holds (set squares i (Str m)) l m.

(** The empty cells among a list of indices. *)
Definition empty_among (squares : list value) (cells : list nat)
  : list nat :=
  filter (fun i => get squares i = Null) cells.

(** The decision order of the move selector as the specification lists
    it: win now, block, center, a random empty corner, a random empty side,
    no move. *)
Definition selectMove (squares : list value) (m : mark) (u : random)
  : option nat :=
  match first_candidate LINES squares m with
  | Some i => Some i
  | None =>
      match first_candidate LINES squares (opponent_of m) with
      | Some i => Some i
      | None =>
          if decide (get squares 4 = Null) then Some 4
          else
            match empty_among squares [0; 2; 6; 8] with
            | c :: cs => randomPick u (c :: cs)
            | [] =>
                match empty_among squares [1; 3; 5; 7] with
                | c :: cs => randomPick u (c :: cs)
                | [] => None
                end
            end
      end
  end.

(** ** The [Game] component *)

Inductive Mode : Set := HUMAN | CPU.

#[global] Instance Mode_eq_dec : EqDecision Mode.
Proof. solve_decision. Defined.

Record Scores : Set := mkScores {
  scoreX : nat;
  scoreO : nat;
  draws : nat
}.

(** The six [useState] cells of [Game]. *)
Record State : Set := mkState {
  history : list (list value);
  stepNumber : nat;
  xIsNext : bool;
  mode : Mode;
  startingPlayer : mark;
  scores : Scores
}.

(** The initial values passed to [useState]. *)
Definition initialState : State :=
  {| history := [emptyBoard];
     stepNumber := 0;
     xIsNext := true;
     mode := HUMAN;
     startingPlayer := X;
     scores := {| scoreX := 0; scoreO := 0; draws := 0 |} |}.

(** What a render of [Game] derives from the state. *)
Record View : Set := mkView {
  current : list value;
  winnerInfo : WinnerInfo;
  isBoardFull : bool;
  gameOver : bool;
  isCpuTurn : bool
}.

(** The CPU plays the mark that does not start: the test shared by
    [isCpuTurn] and by the [disabled] property of [Board]. *)
Definition cpuToMove (st : State) : bool :=
  (bool_decide (startingPlayer st = O) && xIsNext st)
  || (bool_decide (startingPlayer st = X) && negb (xIsNext st)).

(** A render. [history[stepNumber]] is [undefined] when the pointer is out
    of range, and [calculateWinner] then throws on its first read: the
    render fails, which is [None]. *)
Definition render (st : State) : option View :=
  match history st !! stepNumber st with
  | None => None
  | Some cur =>
      let info := calculateWinner cur in
      let full := forallb (fun c => negb (strict_eq c Null)) cur in
      let over := negb (strict_eq (winner info) Null) || full in
      Some {| current := cur;
              winnerInfo := info;
              isBoardFull := full;
              gameOver := over;
              isCpuTurn :=
                bool_decide (mode st = CPU) && negb over && cpuToMove st |}
  end.

(** [xIsNext ? 'X' : 'O']. *)
Definition nextMark (st : State) : mark := if xIsNext st then X else O.

Definition handlePlay (st : State) (v : View) (index : nat) : State :=
  if truthy (get (current v) index) || gameOver v then st
  else
    let next := set (current v) index (Str (nextMark st)) in
    let newHistory := take (stepNumber st + 1) (history st) ++ [next] in
    {| history := newHistory;
       stepNumber := length newHistory - 1;
       xIsNext := negb (xIsNext st);
       mode := mode st;
       startingPlayer := startingPlayer st;
       scores := scores st |}.

Definition jumpTo (st : State) (step : nat) : State :=
  {| history := history st;
     stepNumber := step;
     xIsNext := if bool_decide (step mod 2 = 0)
                then bool_decide (startingPlayer st = X)
                else negb (bool_decide (startingPlayer st = X));
     mode := mode st;
     startingPlayer := startingPlayer st;
     scores := scores st |}.

(** [startNewRound(nextStarter = startingPlayer)]: [None] is the call
    without an argument. *)
Definition startNewRound (st : State) (arg : option mark) : State :=
  let nextStarter := default (startingPlayer st) arg in
  {| history := [emptyBoard];
     stepNumber := 0;
     xIsNext := bool_decide (nextStarter = X);
     mode := mode st;
     startingPlayer := nextStarter;
     scores := scores st |}.

Definition setScores (st : State) (s : Scores) : State :=
  {| history := history st;
     stepNumber := stepNumber st;
     xIsNext := xIsNext st;
     mode := mode st;
     startingPlayer := startingPlayer st;
     scores := s |}.

Definition resetMatch (st : State) : State :=
  startNewRound (setScores st {| scoreX := 0; scoreO := 0; draws := 0 |})
                (Some X).

Definition setMode (st : State) (m : Mode) : State :=
  {| history := history st;
     stepNumber := stepNumber st;
     xIsNext := xIsNext st;
     mode := m;
     startingPlayer := startingPlayer st;
     scores := scores st |}.

(** The [disabled] property that [Game] passes to [Board]. *)
Definition boardDisabled (st : State) (v : View) : bool :=
  gameOver v
  || (bool_decide (mode st = CPU) && negb (isCpuTurn v)
      && ((bool_decide (startingPlayer st = X) && negb (xIsNext st))
          || (bool_decide (startingPlayer st = O) && xIsNext st))).

(** A click on the [i]-th [Square]. [Board] renders one button per cell of
    [current]; a button with [disabled || value !== null] ignores clicks,
    the others call [onPlay(i)]. *)
Definition clickSquare (st : State) (v : View) (i : nat) : State :=
  match current v !! i with
  | None => st
  | Some value =>
      if boardDisabled st v || negb (strict_eq value Null) then st
      else handlePlay st v i
  end.

(** The callback of the CPU effect's [setTimeout]; the timer only exists
    while [isCpuTurn] holds. *)
Definition cpuTimeout (st : State) (v : View) (u : random) : State :=
  if isCpuTurn v then
    match chooseBestMove (current v) (nextMark st) u with
    | Some cpuMove => handlePlay st v cpuMove
    | None => st
    end
  else st.

(** The updater of the score effect. *)
Definition bumpScore (w : value) (prev : Scores) : Scores :=
  if strict_eq w (Str X)
  then {| scoreX := scoreX prev + 1; scoreO := scoreO prev; draws := draws prev |}
  else if strict_eq w (Str O)
  then {| scoreX := scoreX prev; scoreO := scoreO prev + 1; draws := draws prev |}
  else {| scoreX := scoreX prev; scoreO := scoreO prev; draws := draws prev + 1 |}.

(** The body of the effect "update scores when game ends". *)
Definition scoreEffect (st : State) (v : View) : State :=
  if negb (gameOver v) then st
  else setScores st (bumpScore (winner (winnerInfo v)) (scores st)).

(** The dependency array [[gameOver, winnerInfo.winner]] of that effect. *)
Definition scoreDeps (v : View) : bool * value :=
  (gameOver v, winner (winnerInfo v)).

(** What the presentation layer can ask of the component. *)
Inductive Intent : Set :=
| Play (index : nat)            (* handlePlay(index) *)
| Click (i : nat)               (* a click on square i *)
| CpuTimeout (u : random)       (* the CPU timer fires *)
| Jump (step : nat)             (* jumpTo(step) *)
| NewRound                      (* startNewRound(startingPlayer) *)
| SwapStarter                   (* startNewRound(the other mark) *)
| StartRound (starter : mark)   (* startNewRound(starter) *)
| ResetMatch
| SetMode (m : Mode).

(** The handler that an intent runs, in the closure of the last render. *)
Definition handle (st : State) (v : View) (i : Intent) : State :=
  match i with
  | Play index => handlePlay st v index
  | Click k => clickSquare st v k
  | CpuTimeout u => cpuTimeout st v u
  | Jump step => jumpTo st step
  | NewRound => startNewRound st (Some (startingPlayer st))
  | SwapStarter =>
      startNewRound st (Some (if bool_decide (startingPlayer st = X)
                              then O else X))
  | StartRound starter => startNewRound st (Some starter)
  | ResetMatch => resetMatch st
  | SetMode m => setMode st m
  end.

(** One turn of the component: the handler's state updates are applied
    together, the component renders again, and the score effect runs when
    one of its dependencies differs from the previous render. The
    [setScores] of the effect changes none of the dependencies, so the
    render it causes runs no effect. (On mount the effect runs once, on the
    empty board, where it returns at once.) *)
Definition step (st : State) (i : Intent) : option State :=
  match render st with
  | None => None
  | Some v =>
      let st1 := handle st v i in
      match render st1 with
      | None => None
      | Some v1 =>
          if bool_decide (scoreDeps v1 = scoreDeps v)
          then Some st1
          else Some (scoreEffect st1 v1)
      end
  end.

Fixpoint run (st : State) (intents : list Intent) : option State :=
  match intents with
  | [] => Some st
  | i :: rest =>
      match step st i with
      | None => None
      | Some st' => run st' rest
      end
  end.

(** The states the component can be in. *)
Inductive reachable : State -> Prop :=
| reachable_init : reachable initialState
| reachable_step st i st' :
    reachable st -> step st i = Some st' -> reachable st'.

(** The turn as a function of the starting player and the pointer. *)
Definition turnOf (starter : mark) (placed : nat) : mark :=
  if Nat.even placed then starter else opponent_of starter.

(** A board on which the round is over: a line is complete or no cell is
    [null]. This is [gameOver] as a function of the board on display. *)
Definition terminal (cur : list value) : bool :=
  negb (strict_eq (winner (calculateWinner cur)) Null)
  || forallb (fun c => negb (strict_eq c Null)) cur.

(** The turn recorded in [xIsNext] is the one the parity rule gives. *)
Definition turn_ok (st : State) : Prop :=
  nextMark st = turnOf (startingPlayer st) (stepNumber st).

(** ** Example states *)

(** Three moves played (X at 0, O at 4, X at 8), then a jump back to
    step 1. *)
Definition rewoundState : State :=
  {| history :=
       [ emptyBoard;
         [Str X; Null; Null; Null; Null; Null; Null; Null; Null];
         [Str X; Null; Null; Null; Str O; Null; Null; Null; Null];
         [Str X; Null; Null; Null; Str O; Null; Null; Null; Str X] ];
     stepNumber := 1;
     xIsNext := false;
     mode := HUMAN;
     startingPlayer := X;
     scores := {| scoreX := 0; scoreO := 0; draws := 0 |} |}.

Definition rewoundView : View :=
  {| current := [Str X; Null; Null; Null; Null; Null; Null; Null; Null];
     winnerInfo := {| winner := Null; line := None |};
     isBoardFull := false;
     gameOver := false;
     isCpuTurn := false |}.

(** X plays 0, O plays 3, X plays 1, O plays 4, X plays 2: X wins on the
    top row. *)
Definition xWinsTopRow : list Intent :=
  [Play 0; Play 3; Play 1; Play 4; Play 2].

(** The state after [xWinsTopRow] from the initial state. *)
Definition wonState : State :=
  {| history :=
       [ emptyBoard;
         [Str X; Null; Null; Null; Null; Null; Null; Null; Null];
         [Str X; Null; Null; Str O; Null; Null; Null; Null; Null];
         [Str X; Str X; Null; Str O; Null; Null; Null; Null; Null];
         [Str X; Str X; Null; Str O; Str O; Null; Null; Null; Null];
         [Str X; Str X; Str X; Str O; Str O; Null; Null; Null; Null] ];
     stepNumber := 5;
     xIsNext := false;
     mode := HUMAN;
     startingPlayer := X;
     scores := {| scoreX := 1; scoreO := 0; draws := 0 |} |}.

(** Versus the computer, the human (X, the starter) has played the
    center: the CPU is to move and its timer is running. *)
Definition cpuThinking : State :=
  {| history :=
       [ emptyBoard;
         [Null; Null; Null; Null; Str X; Null; Null; Null; Null] ];
     stepNumber := 1;
     xIsNext := false;
     mode := CPU;
     startingPlayer := X;
     scores := {| scoreX := 0; scoreO := 0; draws := 0 |} |}.

(** ** What the component displays *)

(** A mark as the string it is. *)
Definition markString (m : mark) : string :=
  match m with
  | X => "X"
  | O => "O"
  end.

(** The status message of [Game]. *)
Definition status (st : State) (v : View) : string :=
  let nextPlayer := nextMark st in
  match winner (winnerInfo v) with
  | Str w => "Winner: " +:+ markString w
  | Null | Undefined =>
      if isBoardFull v then "Draw"
      else "Next: " +:+ markString nextPlayer
             +:+ (if bool_decide (mode st = CPU)
                  then if bool_decide (nextPlayer = startingPlayer st)
                       then " (You)" else " (CPU)"
                  else "")
  end.

(** [winningLine?.includes(i)], made a boolean by [!!]: the [highlight]
    property of the [i]-th square. *)
Definition isWinningCell (winningLine : option triple) (i : nat) : bool :=
  match winningLine with
  | None => false
  | Some (a, b, c) => existsb (Nat.eqb i) [a; b; c]
  end.

(** The [disabled] property of the [i]-th square of [Board]. *)
Definition squareDisabled (st : State) (v : View) (i : nat) : bool :=
  boardDisabled st v || negb (strict_eq (get (current v) i) Null).

(** One button of the [History] list. *)
Record HistoryButton : Set := mkHistoryButton {
  desc : string;
  isActive : bool;
  onClickJump : nat
}.

(** [history.map((_, move) => ...)] in [History]: a button per snapshot,
    labelled by its index, active on the pointer, jumping to its index. *)
Definition historyButtons (h : list (list value)) (pointer : nat)
  : list HistoryButton :=
  imap (fun move _ =>
          {| desc := if bool_decide (move = 0) then "Go to start"
                     else "Go to move #"
                            +:+ DecimalString.NilEmpty.string_of_uint
                                  (Nat.to_uint move);
             isActive := bool_decide (move = pointer);
             onClickJump := move |}) h.

(** ** Play that stays on the board *)

(** The number of marks on a board. *)
Definition marks (squares : list value) : nat :=
  length (filter (fun c => c <> Null) squares).

(** Intents whose cell index, if any, is one of the nine cells. Clicks and
    CPU moves always are; a direct [handlePlay(index)] is when
    [index < 9]. *)
Definition onBoard (i : Intent) : Prop :=
  match i with
  | Play index => index < 9
  | _ => True
  end.

(** The states reached through such intents. *)
Inductive played : State -> Prop :=
| played_init : played initialState
| played_step st i st' :
    played st -> onBoard i -> step st i = Some st' -> played st'.

(** The history is a record of legal play: it starts from the empty board
    and each snapshot is the previous one, not terminal, with the mark of
    the player to move placed on one empty cell. *)
Definition consistent (st : State) : Prop :=
  history st !! 0 = Some emptyBoard /\
  stepNumber st < length (history st) /\
  turn_ok st /\
  forall k b b',
    history st !! k = Some b -> history st !! (S k) = Some b' ->
    terminal b = false /\
    exists i, i < 9 /\ get b i = Null /\
              b' = set b i (Str (turnOf (startingPlayer st) k)).

(** The intents that place a mark. *)
Definition isMove (i : Intent) : Prop :=
  match i with
  | Play _ | Click _ | CpuTimeout _ => True
  | _ => False
  end.

(** The sum of the three counters. *)
Definition totalScore (s : Scores) : nat := scoreX s + scoreO s + draws s.

(** Exchange of the two marks on a cell and on a board. *)
Definition swapValue (c : value) : value :=
  match c with
  | Str m => Str (opponent_of m)
  | Null => Null
  | Undefined => Undefined
  end.

Definition swapBoard (squares : list value) : list value :=
  swapValue <$> squares.

(** * Properties *)

(** ** The win detector *)

Section WinDetector.

Variable squares : list value.

Lemma loop_test_holds a b c :
  truthy (get squares a)
    && strict_eq (get squares a) (get squares b)
    && strict_eq (get squares a) (get squares c) = true
  <-> exists m, holds squares (a, b, c) m.
Proof.
  unfold strict_eq, holds. split.
  - intros H. apply andb_prop in H as [H Hc]. apply andb_prop in H as [Ht Hb].
    apply bool_decide_eq_true_1 in Hb, Hc.
    destruct (get squares a) as [| |m] eqn:Ea; try discriminate.
    exists m. auto.
  - intros [m (Ha & Hb & Hc)]. rewrite Ha, Hb, Hc. simpl.
    rewrite bool_decide_eq_true_2; auto.
Qed.

Lemma holds_functional l m m' :
  holds squares l m -> holds squares l m' -> m = m'.
Proof.
  destruct l as [[a b] c]. intros (Ha & _) (Ha' & _). congruence.
Qed.

(** The loop either stops at the complete triple of lowest index, or
    visits every triple and finds none complete. *)
Lemma calculateWinner_loop_spec lines :
  (exists j l m, first_complete lines squares j l /\ holds squares l m /\
     calculateWinner_loop lines squares
       = {| winner := Str m; line := Some l |})
  \/ ((forall l, l ∈ lines -> ~ complete squares l) /\
      calculateWinner_loop lines squares = {| winner := Null; line := None |}).
Proof.
  induction lines as [|[[a b] c] rest IH]; simpl.
  - right. split; [|reflexivity]. intros l Hl. inversion Hl.
  - destruct (truthy (get squares a)
              && strict_eq (get squares a) (get squares b)
              && strict_eq (get squares a) (get squares c)) eqn:Et.
    + left. apply loop_test_holds in Et as [m Hm].
      exists 0, (a, b, c), m. split; [|split]; auto.
      * split; [reflexivity|]. split; [exists m; exact Hm|]. intros k l' Hk. lia.
      * destruct Hm as (-> & _). reflexivity.
    + assert (Hn : ~ complete squares (a, b, c)).
      { intros Hc. apply loop_test_holds in Hc. congruence. }
      destruct IH as [(j & l & m & (Hj & Hc & Hlow) & Hm & Heq)
                     | (Hnone & Heq)].
      * left. exists (S j), l, m. split; [|split]; auto.
        split; [exact Hj|]. split; [exact Hc|].
        intros [|k] l' Hk Hl'; simpl in Hl'.
        -- injection Hl' as <-. exact Hn.
        -- apply (Hlow k); [lia | exact Hl'].
      * right. split; auto.
        intros l Hl. apply elem_of_cons in Hl as [->|Hl]; auto.
Qed.

Lemma first_complete_unique lines j l j' l' :
  first_complete lines squares j l -> first_complete lines squares j' l' ->
  j = j' /\ l = l'.
Proof.
  intros (Hj & Hc & Hlow) (Hj' & Hc' & Hlow').
  assert (j = j') as <-.
  { destruct (Nat.lt_trichotomy j j') as [Hlt|[Heq|Hgt]]; auto.
    - exfalso. exact (Hlow' j l Hlt Hj Hc).
    - exfalso. exact (Hlow j' l' Hgt Hj' Hc'). }
  split; congruence.
Qed.

Lemma calculateWinner_loop_first lines j l m :
  first_complete lines squares j l -> holds squares l m ->
  calculateWinner_loop lines squares = {| winner := Str m; line := Some l |}.
Proof.
  intros Hf Hm.
  destruct (calculateWinner_loop_spec lines)
    as [(j' & l' & m' & Hf' & Hm' & Heq) | (Hnone & _)].
  - destruct (first_complete_unique _ _ _ _ _ Hf Hf') as [_ <-].
    rewrite (holds_functional _ _ _ Hm Hm'). exact Heq.
  - destruct Hf as (Hj & Hc & _). exfalso.
    apply (Hnone l); [|exact Hc]. apply list_elem_of_lookup. eauto.
Qed.

Lemma calculateWinner_loop_none lines :
  (forall l, l ∈ lines -> ~ complete squares l) ->
  calculateWinner_loop lines squares = {| winner := Null; line := None |}.
Proof.
  intros Hnone.
  destruct (calculateWinner_loop_spec lines)
    as [(j & l & m & (Hj & Hc & _) & _) | (_ & Heq)]; [|exact Heq].
  exfalso. apply (Hnone l); [|exact Hc]. apply list_elem_of_lookup. eauto.
Qed.

(** A complete triple at index [i] forces a result at an index no higher. *)
Lemma calculateWinner_loop_lowest lines i l :
  lines !! i = Some l -> complete squares l ->
  exists j l', j <= i /\ first_complete lines squares j l' /\
    line (calculateWinner_loop lines squares) = Some l'.
Proof.
  intros Hi Hc.
  destruct (calculateWinner_loop_spec lines)
    as [(j & l' & m & Hf & _ & Heq) | (Hnone & _)].
  - exists j, l'. split; [|split; [exact Hf | rewrite Heq; reflexivity]].
    destruct Hf as (_ & _ & Hlow).
    destruct (le_lt_dec j i) as [Hle|Hlt]; [exact Hle|].
    exfalso. exact (Hlow i l Hlt Hi Hc).
  - exfalso. apply (Hnone l); [|exact Hc]. apply list_elem_of_lookup. eauto.
Qed.

End WinDetector.

Lemma LINES_cases (P : triple -> Prop) :
  P (0, 1, 2) -> P (3, 4, 5) -> P (6, 7, 8) ->
  P (0, 3, 6) -> P (1, 4, 7) -> P (2, 5, 8) ->
  P (0, 4, 8) -> P (2, 4, 6) ->
  forall l, l ∈ LINES -> P l.
Proof.
  intros H1 H2 H3 H4 H5 H6 H7 H8 l Hl. unfold LINES in Hl.
  repeat (apply elem_of_cons in Hl as [->|Hl]; [assumption|]).
  inversion Hl.
Qed.

(** C4. [calculateWinner] visits the eight triples in the canonical order
    rows, columns, diagonals, and returns the complete triple of lowest
    index together with the mark on it; when no triple is complete it
    returns [{winner: null, line: null}]. A board holding one mark on one
    winning line and nothing else yields that mark and that line, and when
    several triples are complete the result is never a later one. *)
Theorem calculateWinner_first_complete_line (squares : list value) :
  LINES = [ (0, 1, 2); (3, 4, 5); (6, 7, 8);
            (0, 3, 6); (1, 4, 7); (2, 5, 8);
            (0, 4, 8); (2, 4, 6) ] /\
  (forall j l m,
      first_complete LINES squares j l -> holds squares l m ->
      calculateWinner squares = {| winner := Str m; line := Some l |}) /\
  ((forall l, l ∈ LINES -> ~ complete squares l) ->
      calculateWinner squares = {| winner := Null; line := None |}) /\
  (forall l m, l ∈ LINES ->
      calculateWinner (only_line m l)
        = {| winner := Str m; line := Some l |}) /\
  (forall i l, LINES !! i = Some l -> complete squares l ->
      exists j l', j <= i /\ first_complete LINES squares j l' /\
        line (calculateWinner squares) = Some l').
Proof.
  split; [reflexivity|]. split; [|split; [|split]].
  - intros j l m. apply calculateWinner_loop_first.
  - apply calculateWinner_loop_none.
  - intros l m Hl. revert l Hl.
    apply LINES_cases; destruct m; vm_compute; reflexivity.
  - intros i l. apply calculateWinner_loop_lowest.
Qed.

(** C10. The two fields of the result of [calculateWinner] go together:
    [winner] is [null] exactly when [line] is [null], and a winner [m] with
    line [[a, b, c]] means that the line is one of the eight of [LINES] and
    that the cells [a], [b], [c] of the board all hold [m]. *)
Theorem calculateWinner_fields_coupled (squares : list value) :
  (winner (calculateWinner squares) = Null
     <-> line (calculateWinner squares) = None) /\
  (forall m, winner (calculateWinner squares) = Str m ->
     exists a b c,
       line (calculateWinner squares) = Some (a, b, c) /\
       (a, b, c) ∈ LINES /\
       get squares a = Str m /\ get squares b = Str m /\ get squares c = Str m) /\
  (forall a b c, line (calculateWinner squares) = Some (a, b, c) ->
     exists m,
       winner (calculateWinner squares) = Str m /\
       (a, b, c) ∈ LINES /\
       get squares a = Str m /\ get squares b = Str m /\ get squares c = Str m).
Proof.
  unfold calculateWinner.
  destruct (calculateWinner_loop_spec squares LINES)
    as [(j & [[a b] c] & m & (Hj & _ & _) & Hm & ->) | (_ & ->)]; simpl.
  - assert (Hin : (a, b, c) ∈ LINES) by (apply list_elem_of_lookup; eauto).
    split; [split; discriminate|]. split.
    + intros m' [= <-]. exists a, b, c. auto.
    + intros a' b' c' [= <- <- <-]. exists m. auto.
  - split; [split; reflexivity|]. split.
    + intros m; discriminate.
    + intros a b c; discriminate.
Qed.

(** ** The heuristic opponent *)

(** *** The random source *)

Lemma floor_mul_lt u n : 0 < n -> floor_mul u n < n.
Proof.
  intros Hn. unfold floor_mul.
  apply Nat.Div0.div_lt_upper_bound. nia.
Qed.

(** Every index below [n] is the floor of [u * n] for some [u]. *)
Lemma floor_mul_onto k n : k < n -> floor_mul (mkRandom k (n - k - 1)) n = k.
Proof.
  intros Hk. unfold floor_mul. simpl.
  replace (k + (n - k - 1) + 1) with n by lia.
  apply Nat.div_mul. lia.
Qed.

Lemma randomPick_elem u arr :
  arr <> [] -> exists i, randomPick u arr = Some i /\ i ∈ arr.
Proof.
  intros Hne. unfold randomPick.
  assert (Hlt : floor_mul u (length arr) < length arr).
  { apply floor_mul_lt. destruct arr; [congruence | simpl; lia]. }
  apply lookup_lt_is_Some_2 in Hlt as [i Hi].
  exists i. split; [exact Hi|]. eapply list_elem_of_lookup_2; eauto.
Qed.

Lemma randomPick_Some u arr i : randomPick u arr = Some i -> i ∈ arr.
Proof. unfold randomPick. apply list_elem_of_lookup_2. Qed.

Lemma randomPick_onto arr i :
  i ∈ arr -> exists u, randomPick u arr = Some i.
Proof.
  intros Hi. apply list_elem_of_lookup_1 in Hi as [k Hk].
  assert (Hlt : k < length arr) by (apply lookup_lt_is_Some; eauto).
  exists (mkRandom k (length arr - k - 1)).
  unfold randomPick. rewrite floor_mul_onto; auto.
Qed.

(** *** The win/block sub-check *)

(** One iteration of [findWinningMove]: its test passes exactly when the
    triple has a candidate, and [emptyIndices[0]] is then that candidate. *)
Lemma findWinningMove_test squares player a b c :
  let filledByPlayer :=
    length (filter (fun v => v = Str player)
                   [get squares a; get squares b; get squares c]) in
  let emptyIndices := filter (fun idx => get squares idx = Null) [a; b; c] in
  (bool_decide (filledByPlayer = 2) && bool_decide (length emptyIndices = 1)
     = true /\
   emptyIndices !! 0 = candidate squares player (a, b, c) /\
   is_Some (candidate squares player (a, b, c)))
  \/
  (bool_decide (filledByPlayer = 2) && bool_decide (length emptyIndices = 1)
     = false /\
   candidate squares player (a, b, c) = None).
Proof.
  cbv zeta. unfold candidate.
  rewrite !filter_cons, !filter_nil.
  destruct (get squares a) as [| |[|]], (get squares b) as [| |[|]],
           (get squares c) as [| |[|]], player;
    vm_compute;
    first [ right; split; reflexivity
          | left; split; [reflexivity | split; [reflexivity | eexists; reflexivity]] ].
Qed.

Lemma findWinningMove_loop_first_candidate lines squares player :
  findWinningMove_loop lines squares player
    = first_candidate lines squares player.
Proof.
  induction lines as [|[[a b] c] rest IH]; [reflexivity|].
  cbn [findWinningMove_loop first_candidate].
  destruct (findWinningMove_test squares player a b c)
    as [(-> & -> & [i ->]) | (-> & ->)]; [reflexivity | exact IH].
Qed.

(** *** Reads after a write *)

Lemma get_set_eq squares i v : get (set squares i v) i = v.
Proof.
  unfold get, set. case_decide as Hi.
  - rewrite list_lookup_insert_eq; auto.
  - rewrite lookup_app_r by lia.
    rewrite lookup_app_r by (rewrite length_replicate; lia).
    rewrite length_replicate.
    replace (i - length squares - (i - length squares)) with 0 by lia.
    reflexivity.
Qed.

Lemma get_set_ne squares i j v :
  i <> j -> get (set squares i v) j = get squares j.
Proof.
  intros Hne. unfold get, set. case_decide as Hi.
  - rewrite list_lookup_insert_ne; auto.
  - destruct (decide (j < length squares)) as [Hj|Hj].
    + rewrite lookup_app_l; auto.
    + rewrite lookup_app_r by lia.
      rewrite (lookup_ge_None_2 squares j) by lia.
      destruct (decide (j < i)) as [Hji|Hji].
      * rewrite lookup_app_l by (rewrite length_replicate; lia).
        rewrite lookup_replicate_2 by lia. reflexivity.
      * rewrite lookup_ge_None_2; [reflexivity|].
        rewrite length_app, length_replicate. simpl. lia.
Qed.

(** *** Candidates *)

(** A candidate is an empty cell of its triple, and the mark placed there
    completes the triple. *)
Lemma candidate_Some squares m a b c i :
  candidate squares m (a, b, c) = Some i ->
  get squares i = Null /\ i ∈ [a; b; c] /\
  holds (set squares i (Str m)) (a, b, c) m.
Proof.
  unfold candidate, holds.
  destruct (get squares a) as [| |p] eqn:Ea, (get squares b) as [| |q] eqn:Eb,
           (get squares c) as [| |r] eqn:Ec;
    try discriminate; case_decide as Hd; try discriminate;
    destruct Hd as [-> ->]; intros [= <-];
    (split; [assumption|]); (split; [apply list_elem_of_In; simpl; tauto|]).
  - rewrite get_set_eq, !get_set_ne by congruence. auto.
  - rewrite get_set_eq, !get_set_ne by congruence. auto.
  - rewrite get_set_eq, !get_set_ne by congruence. auto.
Qed.

Lemma first_candidate_Some lines squares m i :
  first_candidate lines squares m = Some i ->
  exists l, l ∈ lines /\ candidate squares m l = Some i.
Proof.
  induction lines as [|l rest IH]; simpl; [discriminate|].
  destruct (candidate squares m l) as [k|] eqn:Ek.
  - intros [= <-]. exists l. split; [left | exact Ek].
  - intros H. destruct (IH H) as (l' & Hl' & Hc).
    exists l'. split; [right; exact Hl' | exact Hc].
Qed.

Lemma LINES_in_range l i :
  l ∈ LINES -> i ∈ [l.1.1; l.1.2; l.2] -> i < 9.
Proof.
  intros Hl. revert l Hl i.
  apply (LINES_cases (fun l => forall i, i ∈ [l.1.1; l.1.2; l.2] -> i < 9));
    simpl; intros i Hi;
    repeat (apply elem_of_cons in Hi as [->|Hi]; [lia|]); inversion Hi.
Qed.

(** What [findWinningMove] returns is an empty cell of the board, and the
    player's mark placed there completes one of the eight lines. *)
Lemma findWinningMove_Some squares player i :
  findWinningMove squares player = Some i ->
  i < 9 /\ get squares i = Null /\
  exists l, l ∈ LINES /\ holds (set squares i (Str player)) l player.
Proof.
  unfold findWinningMove. rewrite findWinningMove_loop_first_candidate.
  intros H. apply first_candidate_Some in H as ([[a b] c] & Hl & Hc).
  apply candidate_Some in Hc as (Hn & Hi & Hh).
  split; [|split; [exact Hn|eauto]].
  exact (LINES_in_range (a, b, c) i Hl Hi).
Qed.

Lemma candidate_complete squares m a b c i :
  a <> b -> a <> c -> b <> c ->
  get squares i = Null -> i ∈ [a; b; c] ->
  holds (set squares i (Str m)) (a, b, c) m ->
  candidate squares m (a, b, c) = Some i.
Proof.
  intros Hab Hac Hbc Hn Hi (Ha & Hb & Hc). unfold candidate.
  apply list_elem_of_In in Hi. simpl in Hi.
  destruct Hi as [<- | [<- | [<- | []]]].
  - rewrite get_set_ne in Hb, Hc by congruence. rewrite Hn, Hb, Hc.
    case_decide; [reflexivity | tauto].
  - rewrite get_set_ne in Ha, Hc by congruence. rewrite Hn, Ha, Hc.
    case_decide; [reflexivity | tauto].
  - rewrite get_set_ne in Ha, Hb by congruence. rewrite Hn, Ha, Hb.
    case_decide; [reflexivity | tauto].
Qed.

Lemma LINES_distinct l :
  l ∈ LINES -> l.1.1 <> l.1.2 /\ l.1.1 <> l.2 /\ l.1.2 <> l.2.
Proof.
  revert l.
  apply (LINES_cases
           (fun l => l.1.1 <> l.1.2 /\ l.1.1 <> l.2 /\ l.1.2 <> l.2));
    simpl; lia.
Qed.

Lemma first_candidate_is_Some lines squares m l i :
  l ∈ lines -> candidate squares m l = Some i ->
  is_Some (first_candidate lines squares m).
Proof.
  induction lines as [|l' rest IH]; intros Hl Hc; [inversion Hl|].
  simpl. destruct (candidate squares m l') eqn:E; [eauto|].
  apply elem_of_cons in Hl as [-> | Hl]; [congruence | auto].
Qed.

(** The sub-check finds a cell exactly when some empty cell completes a
    line, and the cell it finds is such a cell. *)
Lemma first_candidate_completes squares m :
  (forall i, first_candidate LINES squares m = Some i -> completes squares m i)
  /\ ((exists i, completes squares m i)
      <-> is_Some (first_candidate LINES squares m)).
Proof.
  assert (Hsound : forall i, first_candidate LINES squares m = Some i ->
                             completes squares m i).
  { intros i H. apply first_candidate_Some in H as ([[a b] c] & Hl & Hc).
    apply candidate_Some in Hc as (Hn & Hi & Hh).
    split; [exact Hn|]. exists (a, b, c). auto. }
  split; [exact Hsound|]. split.
  - intros (i & Hn & [[a b] c] & Hl & Hi & Hh).
    destruct (LINES_distinct _ Hl) as (Hab & Hac & Hbc).
    simpl in Hab, Hac, Hbc, Hi.
    apply (first_candidate_is_Some LINES squares m (a, b, c) i Hl).
    apply candidate_complete; assumption.
  - intros [i Hi]. exists i. auto.
Qed.

(** *** Well-formed boards *)

Lemma wellFormed_falsy squares i :
  wellFormed squares -> i < 9 ->
  (truthy (get squares i) = false <-> get squares i = Null).
Proof.
  intros [_ Hwf] Hi. specialize (Hwf i Hi).
  destruct (get squares i); simpl; split; congruence.
Qed.

Lemma wellFormed_falsy_filter squares cells :
  wellFormed squares -> Forall (fun i => i < 9) cells ->
  filter (fun i => truthy (get squares i) = false) cells
    = empty_among squares cells.
Proof.
  intros Hwf Hall. unfold empty_among.
  induction Hall as [|i cells Hi _ IH]; [reflexivity|].
  rewrite !filter_cons, IH.
  pose proof (wellFormed_falsy squares i Hwf Hi) as Hiff.
  repeat case_decide; tauto.
Qed.

Lemma emptyBoard_wellFormed : wellFormed emptyBoard.
Proof.
  split; [reflexivity|]. intros i Hi.
  unfold get, emptyBoard. rewrite lookup_replicate_2 by exact Hi. discriminate.
Qed.

(** *** The move selector *)

Lemma corners_in_range : Forall (fun i => i < 9) [0; 2; 6; 8].
Proof. repeat constructor; lia. Qed.

Lemma sides_in_range : Forall (fun i => i < 9) [1; 3; 5; 7].
Proof. repeat constructor; lia. Qed.

Lemma falsy_filter_elem squares cells i :
  Forall (fun k => k < 9) cells ->
  i ∈ filter (fun k => truthy (get squares k) = false) cells ->
  i < 9 /\ truthy (get squares i) = false.
Proof.
  intros Hall Hi. apply list_elem_of_filter in Hi as [Hf Hi].
  split; [|exact Hf]. rewrite Forall_forall in Hall. auto.
Qed.

(** Every branch of [chooseBestMove] returns a cell without a mark. *)
Lemma chooseBestMove_Some_falsy squares player u i :
  chooseBestMove squares player u = Some i ->
  i < 9 /\ truthy (get squares i) = false.
Proof.
  unfold chooseBestMove.
  destruct (findWinningMove squares player) as [w|] eqn:Ew.
  { intros [= <-]. apply findWinningMove_Some in Ew as (Hlt & Hn & _).
    rewrite Hn. auto. }
  destruct (findWinningMove squares (opponent_of player)) as [b|] eqn:Eb.
  { intros [= <-]. apply findWinningMove_Some in Eb as (Hlt & Hn & _).
    rewrite Hn. auto. }
  destruct (truthy (get squares 4)) eqn:E4; simpl.
  2:{ intros [= <-]. split; [lia | exact E4]. }
  case_bool_decide as Hc; simpl.
  2:{ intros Hp. apply randomPick_Some in Hp.
      exact (falsy_filter_elem _ _ _ corners_in_range Hp). }
  case_bool_decide as Hs; simpl; [discriminate|].
  intros Hp. apply randomPick_Some in Hp.
  exact (falsy_filter_elem _ _ _ sides_in_range Hp).
Qed.

(** C8. Whatever index [chooseBestMove] returns is a cell of the board
    that holds no mark: it is never an occupied cell, and on a
    well-formed board it is an empty ([null]) cell. *)
Theorem chooseBestMove_never_occupied
    (squares : list value) (player : mark) (u : random) (i : nat) :
  chooseBestMove squares player u = Some i ->
  i < 9 /\ truthy (get squares i) = false /\
  (wellFormed squares -> get squares i = Null).
Proof.
  intros H. apply chooseBestMove_Some_falsy in H as [Hlt Hf].
  split; [exact Hlt|]. split; [exact Hf|].
  intros Hwf. apply (wellFormed_falsy squares i Hwf Hlt). exact Hf.
Qed.

Lemma chooseBestMove_never_occupied_witness :
  4 < 9 /\ truthy (get emptyBoard 4) = false /\
  (wellFormed emptyBoard -> get emptyBoard 4 = Null).
Proof.
  apply (chooseBestMove_never_occupied emptyBoard X (mkRandom 0 0) 4).
  reflexivity.
Defined.

(** On a well-formed board the code and the listed decision order agree. *)
Lemma chooseBestMove_selectMove squares player u :
  wellFormed squares ->
  chooseBestMove squares player u = selectMove squares player u.
Proof.
  intros Hwf. unfold chooseBestMove, selectMove, findWinningMove.
  rewrite !findWinningMove_loop_first_candidate.
  destruct (first_candidate LINES squares player); [reflexivity|].
  destruct (first_candidate LINES squares (opponent_of player)); [reflexivity|].
  rewrite (wellFormed_falsy_filter _ _ Hwf corners_in_range).
  rewrite (wellFormed_falsy_filter _ _ Hwf sides_in_range).
  pose proof (wellFormed_falsy squares 4 Hwf ltac:(lia)) as H4.
  generalize (empty_among squares [1; 3; 5; 7]).
  generalize (empty_among squares [0; 2; 6; 8]).
  intros corners sides.
  destruct (truthy (get squares 4)); case_decide as Hd.
  - destruct H4 as [_ H4]. specialize (H4 Hd). discriminate.
  - destruct corners, sides; reflexivity.
  - reflexivity.
  - destruct Hd. apply H4. reflexivity.
Qed.

Lemma selectMove_pool squares m u pool :
  first_candidate LINES squares m = None ->
  first_candidate LINES squares (opponent_of m) = None ->
  get squares 4 <> Null ->
  pool <> [] ->
  (empty_among squares [0; 2; 6; 8] = pool
   \/ (empty_among squares [0; 2; 6; 8] = []
       /\ empty_among squares [1; 3; 5; 7] = pool)) ->
  selectMove squares m u = randomPick u pool.
Proof.
  intros Hw Hb H4 Hne Hpool. unfold selectMove. rewrite Hw, Hb.
  case_decide; [contradiction|].
  destruct Hpool as [-> | [-> ->]]; destruct pool; congruence.
Qed.

Lemma empty_among_nil squares cells i :
  empty_among squares cells = [] -> i ∈ cells -> get squares i <> Null.
Proof.
  unfold empty_among. intros Hnil Hi Hn.
  exact (filter_nil_not_elem_of _ _ i Hnil Hn Hi).
Qed.

Lemma chooseBestMove_pool squares player u pool :
  wellFormed squares ->
  first_candidate LINES squares player = None ->
  first_candidate LINES squares (opponent_of player) = None ->
  get squares 4 <> Null ->
  pool <> [] ->
  (empty_among squares [0; 2; 6; 8] = pool
   \/ (empty_among squares [0; 2; 6; 8] = []
       /\ empty_among squares [1; 3; 5; 7] = pool)) ->
  (exists c, c ∈ pool /\ chooseBestMove squares player u = Some c) /\
  (forall c, c ∈ pool -> exists u', chooseBestMove squares player u' = Some c).
Proof.
  intros Hwf Hw Hb H4 Hne Hpool. split.
  - destruct (randomPick_elem u pool Hne) as (c & Hc & Hin).
    exists c. split; [exact Hin|].
    rewrite (chooseBestMove_selectMove _ _ _ Hwf).
    rewrite (selectMove_pool _ _ _ pool Hw Hb H4 Hne Hpool). exact Hc.
  - intros c Hin. destruct (randomPick_onto pool c Hin) as [u' Hu'].
    exists u'. rewrite (chooseBestMove_selectMove _ _ _ Hwf).
    rewrite (selectMove_pool _ _ _ pool Hw Hb H4 Hne Hpool). exact Hu'.
Qed.

Lemma chooseBestMove_None squares player u :
  wellFormed squares ->
  (chooseBestMove squares player u = None
   <-> forall i, i < 9 -> get squares i <> Null).
Proof.
  intros Hwf. split.
  - rewrite (chooseBestMove_selectMove _ _ _ Hwf). unfold selectMove.
    destruct (first_candidate LINES squares player); [discriminate|].
    destruct (first_candidate LINES squares (opponent_of player));
      [discriminate|].
    case_decide as H4; [discriminate|].
    destruct (empty_among squares [0; 2; 6; 8]) as [|c cs] eqn:Ec.
    2:{ intros H. destruct (randomPick_elem u (c :: cs)) as (k & Hk & _);
          congruence. }
    destruct (empty_among squares [1; 3; 5; 7]) as [|d ds] eqn:Es.
    2:{ intros H. destruct (randomPick_elem u (d :: ds)) as (k & Hk & _);
          congruence. }
    intros _ i Hi.
    assert (Hcases : i = 4 \/ i ∈ [0; 2; 6; 8] \/ i ∈ [1; 3; 5; 7]).
    { do 9 (destruct i as [|i];
            [rewrite !list_elem_of_In; simpl; lia|]). lia. }
    destruct Hcases as [-> | [Hin | Hin]]; [exact H4 | |].
    + exact (empty_among_nil _ _ _ Ec Hin).
    + exact (empty_among_nil _ _ _ Es Hin).
  - intros Hfull. destruct (chooseBestMove squares player u) as [i|] eqn:E;
      [|reflexivity].
    apply chooseBestMove_Some_falsy in E as (Hlt & Hf).
    exfalso. apply (Hfull i Hlt).
    apply (wellFormed_falsy squares i Hwf Hlt). exact Hf.
Qed.

(** C5. On every board and for every mark, [chooseBestMove] follows the
    decision order of [selectMove]: the first win-now candidate in
    canonical line order (a line counts when exactly two of its cells hold
    the mark and the third is empty, which happens exactly when some empty
    cell completes a line), else the first such candidate for
    the opposing mark, else cell 4 if it is empty, else one of the empty
    corners 0, 2, 6, 8 (any of them, depending on the random number), else
    one of the empty sides 1, 3, 5, 7, else no move, which happens exactly
    when no cell is empty. It returns 2 on [X,X,_,...] for X, 2 on
    [O,O,_,X,...] for X, and 4 on the empty board. *)
Theorem chooseBestMove_priority
    (squares : list value) (player : mark) (u : random) :
  wellFormed squares ->
  (forall m, findWinningMove squares m = first_candidate LINES squares m) /\
  (forall m,
     (forall i, first_candidate LINES squares m = Some i ->
                completes squares m i) /\
     ((exists i, completes squares m i)
      <-> is_Some (first_candidate LINES squares m))) /\
  chooseBestMove squares player u = selectMove squares player u /\
  (first_candidate LINES squares player = None ->
   first_candidate LINES squares (opponent_of player) = None ->
   get squares 4 <> Null ->
   empty_among squares [0; 2; 6; 8] <> [] ->
   (exists c, c ∈ empty_among squares [0; 2; 6; 8] /\
              chooseBestMove squares player u = Some c) /\
   (forall c, c ∈ empty_among squares [0; 2; 6; 8] ->
              exists u', chooseBestMove squares player u' = Some c)) /\
  (first_candidate LINES squares player = None ->
   first_candidate LINES squares (opponent_of player) = None ->
   get squares 4 <> Null ->
   empty_among squares [0; 2; 6; 8] = [] ->
   empty_among squares [1; 3; 5; 7] <> [] ->
   (exists c, c ∈ empty_among squares [1; 3; 5; 7] /\
              chooseBestMove squares player u = Some c) /\
   (forall c, c ∈ empty_among squares [1; 3; 5; 7] ->
              exists u', chooseBestMove squares player u' = Some c)) /\
  (chooseBestMove squares player u = None
   <-> forall i, i < 9 -> get squares i <> Null) /\
  (forall u',
     chooseBestMove
       [Str X; Str X; Null; Null; Null; Null; Null; Null; Null] X u'
     = Some 2) /\
  (forall u',
     chooseBestMove
       [Str O; Str O; Null; Str X; Null; Null; Null; Null; Null] X u'
     = Some 2) /\
  (forall u', chooseBestMove emptyBoard X u' = Some 4).
Proof.
  intros Hwf.
  split; [intros m; apply findWinningMove_loop_first_candidate|].
  split; [intros m; apply first_candidate_completes|].
  split; [apply chooseBestMove_selectMove; exact Hwf|].
  split; [intros Hw Hb H4 Hne;
          apply chooseBestMove_pool; auto|].
  split; [intros Hw Hb H4 Hc Hne;
          apply chooseBestMove_pool; auto|].
  split; [apply chooseBestMove_None; exact Hwf|].
  repeat split; intros u'; reflexivity.
Qed.

Lemma chooseBestMove_priority_witness :
  wellFormed emptyBoard /\
  chooseBestMove emptyBoard O (mkRandom 1 2)
    = selectMove emptyBoard O (mkRandom 1 2).
Proof.
  split; [exact emptyBoard_wellFormed|].
  exact (proj1 (proj2 (proj2 (chooseBestMove_priority emptyBoard O
                                (mkRandom 1 2) emptyBoard_wellFormed)))).
Defined.

(** ** The [Game] component *)

Section Component.

Implicit Types (st : State) (v : View) (i : Intent).

(** *** Renders *)

Lemma render_current st v :
  render st = Some v -> history st !! stepNumber st = Some (current v).
Proof.
  unfold render. destruct (history st !! stepNumber st) as [cur|];
    [|discriminate].
  intros [= <-]. reflexivity.
Qed.

Lemma render_in_range st v :
  render st = Some v -> stepNumber st < length (history st).
Proof.
  intros H. apply render_current in H.
  apply lookup_lt_is_Some. eauto.
Qed.

Lemma render_is_Some st :
  stepNumber st < length (history st) -> is_Some (render st).
Proof.
  intros H. apply lookup_lt_is_Some_2 in H as [cur Hcur].
  unfold render. rewrite Hcur. eauto.
Qed.

(** The score plays no part in a render. *)
Lemma render_setScores st s v :
  render st = Some v -> render (setScores st s) = Some v.
Proof. unfold render, setScores, cpuToMove. simpl. auto. Qed.

Lemma render_startNewRound st arg :
  exists v, render (startNewRound st arg) = Some v /\
            current v = emptyBoard /\ gameOver v = false /\
            winner (winnerInfo v) = Null.
Proof. eexists. split; [reflexivity|]. repeat split. Qed.

(** *** The score effect *)

Lemma scoreEffect_frame st v :
  history (scoreEffect st v) = history st /\
  stepNumber (scoreEffect st v) = stepNumber st /\
  xIsNext (scoreEffect st v) = xIsNext st /\
  mode (scoreEffect st v) = mode st /\
  startingPlayer (scoreEffect st v) = startingPlayer st.
Proof. unfold scoreEffect. destruct (gameOver v); simpl; auto. Qed.

Lemma scoreEffect_in_progress st v :
  gameOver v = false -> scoreEffect st v = st.
Proof. unfold scoreEffect. intros ->. reflexivity. Qed.

(** A turn of the component is its handler, up to the score. *)
Lemma step_inv st i st' :
  step st i = Some st' ->
  exists v v1,
    render st = Some v /\ render (handle st v i) = Some v1 /\
    (st' = handle st v i \/ st' = scoreEffect (handle st v i) v1).
Proof.
  unfold step. destruct (render st) as [v|] eqn:Hv; [|discriminate].
  destruct (render (handle st v i)) as [v1|] eqn:Hv1; [|discriminate].
  case_bool_decide; intros [= <-]; exists v, v1; auto.
Qed.

Lemma step_frame st i st' :
  step st i = Some st' ->
  exists v,
    render st = Some v /\
    history st' = history (handle st v i) /\
    stepNumber st' = stepNumber (handle st v i) /\
    xIsNext st' = xIsNext (handle st v i) /\
    mode st' = mode (handle st v i) /\
    startingPlayer st' = startingPlayer (handle st v i).
Proof.
  intros H. apply step_inv in H as (v & v1 & Hv & _ & [-> | ->]);
    exists v; (split; [exact Hv|]).
  - auto.
  - apply scoreEffect_frame.
Qed.

(** A handler whose result renders makes the turn succeed. *)
Lemma step_is_Some st v i :
  render st = Some v ->
  stepNumber (handle st v i) < length (history (handle st v i)) ->
  is_Some (step st i).
Proof.
  intros Hv Hr. apply render_is_Some in Hr as [v1 Hv1].
  unfold step. rewrite Hv, Hv1. case_bool_decide; eauto.
Qed.

(** *** [handlePlay] *)

Lemma handlePlay_rejected st v index :
  truthy (get (current v) index) = true \/ gameOver v = true ->
  handlePlay st v index = st.
Proof.
  unfold handlePlay. intros [-> | ->]; [reflexivity|].
  rewrite orb_true_r. reflexivity.
Qed.

Lemma handlePlay_accepted st v index :
  truthy (get (current v) index) = false -> gameOver v = false ->
  handlePlay st v index =
    {| history := take (stepNumber st + 1) (history st)
                    ++ [set (current v) index (Str (nextMark st))];
       stepNumber :=
         length (take (stepNumber st + 1) (history st)
                   ++ [set (current v) index (Str (nextMark st))]) - 1;
       xIsNext := negb (xIsNext st);
       mode := mode st;
       startingPlayer := startingPlayer st;
       scores := scores st |}.
Proof. unfold handlePlay. intros -> ->. reflexivity. Qed.

Lemma handlePlay_stepNumber st v index :
  render st = Some v ->
  truthy (get (current v) index) = false -> gameOver v = false ->
  stepNumber (handlePlay st v index) = stepNumber st + 1 /\
  length (history (handlePlay st v index)) = stepNumber st + 2.
Proof.
  intros Hv Hc Hg. apply render_in_range in Hv.
  rewrite (handlePlay_accepted _ _ _ Hc Hg). simpl.
  rewrite length_app, length_take. simpl. lia.
Qed.

(** A rejected move leaves the whole state as it was, and the turn of the
    component changes nothing either. *)
Lemma step_Play_rejected st v index :
  render st = Some v ->
  truthy (get (current v) index) = true \/ gameOver v = true ->
  step st (Play index) = Some st.
Proof.
  intros Hv Hrej. unfold step. rewrite Hv. simpl.
  rewrite (handlePlay_rejected _ _ _ Hrej), Hv.
  rewrite bool_decide_eq_true_2; reflexivity.
Qed.

(** C6. A move accepted at step [s] of the history, whatever the length
    of the history, leaves a history of length [s + 2]: the entries
    [0..s] are the old ones, entry [s + 1] is the new board, nothing lies
    beyond it, and the pointer is [s + 1]. *)
Theorem play_from_rewound_step st v index :
  render st = Some v ->
  truthy (get (current v) index) = false ->
  gameOver v = false ->
  exists st',
    step st (Play index) = Some st' /\
    length (history st') = stepNumber st + 2 /\
    (forall k, k <= stepNumber st -> history st' !! k = history st !! k) /\
    history st' !! (stepNumber st + 1)
      = Some (set (current v) index (Str (nextMark st))) /\
    (forall k, stepNumber st + 1 < k -> history st' !! k = None) /\
    stepNumber st' = stepNumber st + 1.
Proof.
  intros Hv Hc Hg.
  destruct (handlePlay_stepNumber _ _ _ Hv Hc Hg) as [Hs Hl].
  destruct (step_is_Some st v (Play index) Hv) as [st' Hst'].
  { simpl. lia. }
  exists st'. split; [exact Hst'|].
  apply step_frame in Hst' as (v' & Hv' & Hh & Hn & _).
  assert (v' = v) as -> by congruence. simpl in Hh, Hn.
  rewrite Hh, Hn. clear Hh Hn.
  pose proof (render_in_range _ _ Hv) as Hr.
  assert (Hlen : length (take (stepNumber st + 1) (history st))
                 = stepNumber st + 1).
  { rewrite length_take. lia. }
  split; [exact Hl|]. split; [|split; [|split; [|exact Hs]]].
  - intros k Hk. rewrite (handlePlay_accepted _ _ _ Hc Hg). simpl.
    rewrite lookup_app_l by lia. apply lookup_take_lt. lia.
  - rewrite (handlePlay_accepted _ _ _ Hc Hg). simpl.
    rewrite lookup_app_r by lia. rewrite Hlen, Nat.sub_diag. reflexivity.
  - intros k Hk. apply lookup_ge_None_2. lia.
Qed.

Lemma play_from_rewound_step_witness :
  exists st',
    step rewoundState (Play 2) = Some st' /\
    length (history st') = 3 /\
    (forall k, k <= 1 -> history st' !! k = history rewoundState !! k) /\
    history st' !! 2
      = Some [Str X; Null; Str O; Null; Null; Null; Null; Null; Null] /\
    (forall k, 2 < k -> history st' !! k = None) /\
    stepNumber st' = 2.
Proof.
  exact (play_from_rewound_step rewoundState rewoundView 2
           eq_refl eq_refl eq_refl).
Defined.


(** *** Whose turn it is *)

Lemma opponent_of_involutive m : opponent_of (opponent_of m) = m.
Proof. destruct m; reflexivity. Qed.

Lemma turnOf_succ starter n :
  turnOf starter (n + 1) = opponent_of (turnOf starter n).
Proof.
  unfold turnOf. rewrite Nat.add_1_r, Nat.even_succ, <- Nat.negb_even.
  destruct (Nat.even n); simpl; [reflexivity|].
  symmetry. apply opponent_of_involutive.
Qed.

Lemma mod2_even n : bool_decide (n mod 2 = 0) = Nat.even n.
Proof.
  destruct (Nat.even n) eqn:E.
  - apply Nat.even_spec in E as [k ->].
    apply bool_decide_eq_true_2.
    rewrite Nat.mul_comm. apply Nat.Div0.mod_mul.
  - apply bool_decide_eq_false_2.
    assert (Ho : Nat.odd n = true) by (rewrite <- Nat.negb_even, E; reflexivity).
    apply Nat.odd_spec in Ho as [k ->].
    rewrite Nat.add_comm, Nat.mul_comm, Nat.Div0.mod_add. discriminate.
Qed.

Lemma jumpTo_turn st k : turn_ok (jumpTo st k).
Proof.
  unfold turn_ok, nextMark, turnOf, jumpTo.
  cbn [xIsNext startingPlayer stepNumber]. rewrite mod2_even.
  destruct (Nat.even k), (startingPlayer st); reflexivity.
Qed.

Lemma startNewRound_turn st arg : turn_ok (startNewRound st arg).
Proof.
  unfold turn_ok, nextMark, turnOf, startNewRound. simpl.
  destruct (default (startingPlayer st) arg); reflexivity.
Qed.

Lemma handlePlay_turn st v index :
  render st = Some v -> turn_ok st -> turn_ok (handlePlay st v index).
Proof.
  intros Hv Hok.
  destruct (truthy (get (current v) index)) eqn:Hc.
  { rewrite handlePlay_rejected; auto. }
  destruct (gameOver v) eqn:Hg.
  { rewrite handlePlay_rejected; auto. }
  destruct (handlePlay_stepNumber _ _ _ Hv Hc Hg) as [Hs _].
  assert (Hsp : startingPlayer (handlePlay st v index) = startingPlayer st)
    by (rewrite (handlePlay_accepted _ _ _ Hc Hg); reflexivity).
  assert (Hx : xIsNext (handlePlay st v index) = negb (xIsNext st))
    by (rewrite (handlePlay_accepted _ _ _ Hc Hg); reflexivity).
  unfold turn_ok in *. rewrite Hs, Hsp, turnOf_succ, <- Hok.
  unfold nextMark. rewrite Hx.
  destruct (xIsNext st); reflexivity.
Qed.

Lemma handle_turn st v i :
  render st = Some v -> turn_ok st -> turn_ok (handle st v i).
Proof.
  intros Hv Hok. destruct i; simpl.
  - apply handlePlay_turn; assumption.
  - unfold clickSquare. destruct (current v !! i); [|assumption].
    destruct (boardDisabled st v || negb (strict_eq v0 Null)); [assumption|].
    apply handlePlay_turn; assumption.
  - unfold cpuTimeout. destruct (isCpuTurn v); [|assumption].
    destruct (chooseBestMove (current v) (nextMark st) u); [|assumption].
    apply handlePlay_turn; assumption.
  - apply jumpTo_turn.
  - apply startNewRound_turn.
  - apply startNewRound_turn.
  - apply startNewRound_turn.
  - apply startNewRound_turn.
  - exact Hok.
Qed.

Lemma step_turn st i st' :
  step st i = Some st' -> turn_ok st -> turn_ok st'.
Proof.
  intros Hstep Hok.
  apply step_frame in Hstep as (v & Hv & _ & Hn & Hx & _ & Hs).
  pose proof (handle_turn st v i Hv Hok) as H.
  unfold turn_ok, nextMark in *. rewrite Hn, Hx, Hs. exact H.
Qed.

Lemma step_renders st i st' : step st i = Some st' -> is_Some (render st').
Proof.
  intros H. apply step_inv in H as (v & v1 & _ & Hv1 & [-> | ->]); eauto.
  unfold scoreEffect. destruct (negb (gameOver v1)); [exact (ex_intro _ v1 Hv1)|].
  exists v1. apply render_setScores. exact Hv1.
Qed.

Lemma reachable_renders st : reachable st -> is_Some (render st).
Proof.
  intros [|st0 i st' _ Hstep]; [eexists; reflexivity|].
  eapply step_renders; eauto.
Qed.

Lemma reachable_turn_ok st : reachable st -> turn_ok st.
Proof.
  induction 1 as [|st i st' _ IH Hstep]; [reflexivity|].
  eapply step_turn; eauto.
Qed.

(** A jump is accepted exactly when its target is a step of the history. *)
Lemma step_Jump st k :
  is_Some (render st) ->
  (k < length (history st) <-> is_Some (step st (Jump k))).
Proof.
  intros [v Hv]. split.
  - intros Hk. apply (step_is_Some st v (Jump k) Hv). exact Hk.
  - intros [st' Hst']. apply step_inv in Hst' as (v0 & v1 & Hv0 & Hv1 & _).
    assert (v0 = v) as -> by congruence.
    apply render_in_range in Hv1. exact Hv1.
Qed.

(** C7. In every state the component can reach through its operations
    (moves, in-range jumps, new rounds, starter swaps, match resets, mode
    changes), the turn is a function of the starting player and the
    pointer: the starting player at an even step, the other mark at an odd
    one. In particular a jump to any step of the history lands on a state
    whose turn follows that rule. *)
Theorem reachable_turn_parity (st : State) :
  reachable st ->
  nextMark st = turnOf (startingPlayer st) (stepNumber st) /\
  (forall k, k < length (history st) ->
     exists st',
       step st (Jump k) = Some st' /\
       reachable st' /\
       stepNumber st' = k /\
       startingPlayer st' = startingPlayer st /\
       nextMark st' = if Nat.even k then startingPlayer st
                      else opponent_of (startingPlayer st)).
Proof.
  intros Hr. split; [exact (reachable_turn_ok st Hr)|].
  intros k Hk.
  destruct (proj1 (step_Jump st k (reachable_renders st Hr)) Hk) as [st' Hst'].
  exists st'. split; [exact Hst'|].
  assert (Hr' : reachable st') by (eapply reachable_step; eauto).
  split; [exact Hr'|].
  pose proof (reachable_turn_ok st' Hr') as Hok.
  apply step_frame in Hst' as (v & _ & _ & Hn & _ & _ & Hs).
  simpl in Hn, Hs. split; [exact Hn|]. split; [exact Hs|].
  unfold turn_ok, turnOf in Hok. rewrite Hn, Hs in Hok. exact Hok.
Qed.

Lemma reachable_rewoundState : reachable rewoundState.
Proof.
  assert (H : run initialState [Play 0; Play 4; Play 8; Jump 1]
              = Some rewoundState) by reflexivity.
  revert H. generalize rewoundState.
  assert (Hrun : forall intents st st',
             reachable st -> run st intents = Some st' -> reachable st').
  { induction intents as [|i rest IH]; simpl; intros st st' Hr.
    - intros [= <-]. exact Hr.
    - destruct (step st i) as [st1|] eqn:E; [|discriminate].
      apply IH. eapply reachable_step; eauto. }
  intros st'. apply Hrun. constructor.
Qed.

Lemma reachable_turn_parity_witness :
  nextMark rewoundState = O /\
  (forall k, k < 4 ->
     exists st',
       step rewoundState (Jump k) = Some st' /\
       reachable st' /\
       stepNumber st' = k /\
       startingPlayer st' = X /\
       nextMark st' = if Nat.even k then X else O).
Proof.
  exact (reachable_turn_parity rewoundState reachable_rewoundState).
Defined.

(** *** Rounds and matches *)

Lemma step_startNewRound st v i s0 arg :
  render st = Some v ->
  handle st v i = startNewRound s0 arg ->
  step st i = Some (startNewRound s0 arg).
Proof.
  intros Hv Hh. unfold step. rewrite Hv, Hh.
  destruct (render_startNewRound s0 arg) as (v1 & Hv1 & _ & Hg & _).
  rewrite Hv1. case_bool_decide; [reflexivity|].
  rewrite (scoreEffect_in_progress _ _ Hg). reflexivity.
Qed.

(** C9. From every state of the mounted component, a new round keeps
    the score board and resets the history to the single empty board with
    pointer 0 and the requested starting player (the current one for "new
    round", the other one for "swap starter"); a match reset zeroes the
    score board and yields the empty board with X as starting player. *)
Theorem newRound_keeps_scores_resetMatch_zeroes
    (st : State) (starter : mark) :
  is_Some (render st) ->
  (exists st',
     step st (StartRound starter) = Some st' /\
     scores st' = scores st /\
     history st' = [emptyBoard] /\ stepNumber st' = 0 /\
     startingPlayer st' = starter) /\
  (exists st',
     step st NewRound = Some st' /\
     scores st' = scores st /\
     history st' = [emptyBoard] /\ stepNumber st' = 0 /\
     startingPlayer st' = startingPlayer st) /\
  (exists st',
     step st SwapStarter = Some st' /\
     scores st' = scores st /\
     history st' = [emptyBoard] /\ stepNumber st' = 0 /\
     startingPlayer st' = opponent_of (startingPlayer st)) /\
  (exists st',
     step st ResetMatch = Some st' /\
     scores st' = {| scoreX := 0; scoreO := 0; draws := 0 |} /\
     history st' = [emptyBoard] /\ stepNumber st' = 0 /\
     startingPlayer st' = X).
Proof.
  intros [v Hv]. split; [|split; [|split]].
  - eexists. split.
    + exact (step_startNewRound st v (StartRound starter) _ _ Hv eq_refl).
    + repeat split.
  - eexists. split.
    + exact (step_startNewRound st v NewRound _ _ Hv eq_refl).
    + repeat split.
  - eexists. split.
    + exact (step_startNewRound st v SwapStarter _ _ Hv eq_refl).
    + repeat split. simpl. destruct (startingPlayer st); reflexivity.
  - eexists. split.
    + exact (step_startNewRound st v ResetMatch _ _ Hv eq_refl).
    + repeat split.
Qed.

Lemma newRound_keeps_scores_resetMatch_zeroes_witness :
  (exists st',
     step wonState (StartRound O) = Some st' /\
     scores st' = {| scoreX := 1; scoreO := 0; draws := 0 |} /\
     history st' = [emptyBoard] /\ stepNumber st' = 0 /\
     startingPlayer st' = O) /\
  (exists st',
     step wonState NewRound = Some st' /\
     scores st' = {| scoreX := 1; scoreO := 0; draws := 0 |} /\
     history st' = [emptyBoard] /\ stepNumber st' = 0 /\
     startingPlayer st' = X) /\
  (exists st',
     step wonState SwapStarter = Some st' /\
     scores st' = {| scoreX := 1; scoreO := 0; draws := 0 |} /\
     history st' = [emptyBoard] /\ stepNumber st' = 0 /\
     startingPlayer st' = O) /\
  (exists st',
     step wonState ResetMatch = Some st' /\
     scores st' = {| scoreX := 0; scoreO := 0; draws := 0 |} /\
     history st' = [emptyBoard] /\ stepNumber st' = 0 /\
     startingPlayer st' = X).
Proof.
  apply (newRound_keeps_scores_resetMatch_zeroes wonState O).
  eexists. reflexivity.
Defined.

(** *** Time travel *)

(** C3, as the code has it. [jumpTo] never alters the stored history (nor
    the score board) and sets the pointer to the step it is given; when
    that step is a step of the history, the pointer stays within the
    history. *)
Theorem jumpTo_keeps_history (st : State) (k : nat) :
  history (jumpTo st k) = history st /\
  scores (jumpTo st k) = scores st /\
  stepNumber (jumpTo st k) = k /\
  (k < length (history st) ->
   stepNumber (jumpTo st k) < length (history (jumpTo st k))).
Proof. repeat split. simpl. auto. Qed.

(** A jump to step 3 of a history of length 1 is neither ignored nor
    clamped: the pointer becomes 3. *)
Lemma jumpTo_out_of_range_counterexample :
  stepNumber initialState < length (history initialState) /\
  ~ (3 < length (history initialState)) /\
  stepNumber (jumpTo initialState 3) <> stepNumber initialState /\
  ~ (stepNumber (jumpTo initialState 3)
       < length (history (jumpTo initialState 3))).
Proof. simpl. repeat split; lia. Qed.

(** *** Scoring *)

(** A turn after which the round is still over with the same winner, or
    after which it is not over, leaves the score to its handler. *)
Lemma step_scores_quiet st i st' v v1 :
  step st i = Some st' ->
  render st = Some v -> render (handle st v i) = Some v1 ->
  scoreDeps v1 = scoreDeps v \/ gameOver v1 = false ->
  scores st' = scores (handle st v i).
Proof.
  unfold step. intros Hstep Hv Hv1 Hq. rewrite Hv, Hv1 in Hstep.
  case_bool_decide as Hd; injection Hstep as <-; [reflexivity|].
  destruct Hq as [Hq | Hq]; [contradiction|].
  rewrite (scoreEffect_in_progress _ _ Hq). reflexivity.
Qed.

(** The turn that ends a round counts it once. *)
Lemma step_scores_terminal st i st' v v1 :
  step st i = Some st' ->
  render st = Some v -> render (handle st v i) = Some v1 ->
  gameOver v = false -> gameOver v1 = true ->
  scores st' = bumpScore (winner (winnerInfo v1)) (scores (handle st v i)).
Proof.
  unfold step. intros Hstep Hv Hv1 Hg Hg1. rewrite Hv, Hv1 in Hstep.
  case_bool_decide as Hd.
  - unfold scoreDeps in Hd. congruence.
  - injection Hstep as <-. unfold scoreEffect. rewrite Hg1. reflexivity.
Qed.

Lemma render_board st cur :
  history st !! stepNumber st = Some cur ->
  exists v, render st = Some v /\ current v = cur /\
            winnerInfo v = calculateWinner cur /\ gameOver v = terminal cur.
Proof.
  intros H. unfold render. rewrite H. eexists. split; [reflexivity|].
  repeat split.
Qed.

(** Leaving a terminal snapshot for a snapshot in progress and coming
    back counts the same outcome once more. *)
Lemma revisit_counts_again st v k b :
  render st = Some v -> gameOver v = true ->
  history st !! k = Some b -> terminal b = false ->
  run st [Jump k; Jump (stepNumber st)]
    = Some (setScores (jumpTo (jumpTo st k) (stepNumber st))
                      (bumpScore (winner (winnerInfo v)) (scores st))).
Proof.
  intros Hv Hg Hk Hb.
  pose proof (render_current _ _ Hv) as Hcur.
  destruct (render_board st _ Hcur) as (v0 & Hv0 & _ & Hw & Ht).
  assert (v0 = v) as -> by congruence.
  destruct (render_board (jumpTo st k) b Hk) as (v1 & Hv1 & _ & _ & Hg1).
  destruct (render_board (jumpTo (jumpTo st k) (stepNumber st)) _ Hcur)
    as (v2 & Hv2 & _ & Hw2 & Hg2).
  rewrite Hb in Hg1. rewrite <- Ht, Hg in Hg2.
  cbn [run]. unfold step at 1. rewrite Hv. cbn [handle]. rewrite Hv1.
  rewrite bool_decide_eq_false_2
    by (unfold scoreDeps; rewrite Hg, Hg1; discriminate).
  rewrite (scoreEffect_in_progress _ _ Hg1).
  unfold step. rewrite Hv1. cbn [handle]. rewrite Hv2.
  rewrite bool_decide_eq_false_2
    by (unfold scoreDeps; rewrite Hg1, Hg2; discriminate).
  unfold scoreEffect. rewrite Hg2, Hw2, <- Hw. reflexivity.
Qed.

(** C1, at the failing input. X wins the round on the top row and the
    score of X becomes 1; jumping to step 4 and back to step 5 shows the
    same terminal board of the same round, and the score of X is 2. *)
Theorem score_counted_again_on_revisit :
  run initialState xWinsTopRow = Some wonState /\
  scores wonState = {| scoreX := 1; scoreO := 0; draws := 0 |} /\
  run wonState [Jump 4] = Some (jumpTo wonState 4) /\
  run wonState [Jump 4; Jump 5]
    = Some (setScores wonState {| scoreX := 2; scoreO := 0; draws := 0 |}).
Proof. repeat split. Qed.

(** *** Moves on the computer's turn *)

(** C2, at the failing input. Versus the computer, after the human's
    first move it is the CPU's turn; the board is not disabled, and both a
    click on square 0 and a direct [handlePlay(0)] place the CPU's mark
    there and advance the history. *)
Theorem move_accepted_on_cpu_turn :
  run initialState [SetMode CPU; Click 4] = Some cpuThinking /\
  (exists v, render cpuThinking = Some v /\
             gameOver v = false /\ truthy (get (current v) 0) = false /\
             isCpuTurn v = true /\ boardDisabled cpuThinking v = false) /\
  step cpuThinking (Click 0) = step cpuThinking (Play 0) /\
  step cpuThinking (Play 0) =
    Some {| history :=
              [ emptyBoard;
                [Null; Null; Null; Null; Str X; Null; Null; Null; Null];
                [Str O; Null; Null; Null; Str X; Null; Null; Null; Null] ];
            stepNumber := 2;
            xIsNext := true;
            mode := CPU;
            startingPlayer := X;
            scores := {| scoreX := 0; scoreO := 0; draws := 0 |} |}.
Proof.
  split; [reflexivity|]. split; [|split; reflexivity].
  eexists. split; [reflexivity|]. repeat split.
Qed.

(** The guard of [Board] never adds anything to [gameOver]: the clause
    meant for the CPU's turn requires [!isCpuTurn] together with the test
    that makes [isCpuTurn] true. *)
Lemma boardDisabled_is_gameOver st v :
  render st = Some v -> boardDisabled st v = gameOver v.
Proof.
  unfold render. destruct (history st !! stepNumber st) as [cur|];
    [|discriminate].
  intros [= <-]. unfold boardDisabled, cpuToMove. simpl.
  destruct (negb (strict_eq (winner (calculateWinner cur)) Null)
            || forallb (fun c => negb (strict_eq c Null)) cur);
    [reflexivity|].
  simpl. destruct (bool_decide (mode st = CPU)),
           (bool_decide (startingPlayer st = X)),
           (bool_decide (startingPlayer st = O)), (xIsNext st); reflexivity.
Qed.

End Component.

(** * Further properties *)

Section Further.

Implicit Types (st : State) (v : View) (u : random).

(** ** Boards *)

Lemma get_Null_lookup squares i :
  get squares i = Null <-> squares !! i = Some Null.
Proof.
  unfold get. destruct (squares !! i) as [c|]; simpl; split;
    congruence.
Qed.

Lemma set_in_range squares i c :
  i < length squares -> set squares i c = <[i := c]> squares.
Proof. intros Hi. unfold set. case_decide; [reflexivity | lia]. Qed.

Lemma length_set_in_range squares i c :
  i < length squares -> length (set squares i c) = length squares.
Proof. intros Hi. rewrite set_in_range by exact Hi. apply length_insert. Qed.

Lemma wellFormed_set squares i c :
  wellFormed squares -> i < 9 -> c <> Undefined ->
  wellFormed (set squares i c).
Proof.
  intros [Hlen Hwf] Hi Hc. split.
  - rewrite length_set_in_range; lia.
  - intros j Hj. destruct (decide (i = j)) as [<- | Hne].
    + rewrite get_set_eq. exact Hc.
    + rewrite get_set_ne by exact Hne. auto.
Qed.

Lemma marks_insert squares i m :
  squares !! i = Some Null ->
  marks (<[i := Str m]> squares) = S (marks squares).
Proof.
  unfold marks. revert i.
  induction squares as [|c rest IH]; intros [|i]; simpl; try discriminate.
  - intros [= ->]. rewrite !filter_cons.
    repeat case_decide; simpl; congruence.
  - intros H. rewrite !filter_cons.
    case_decide; simpl; rewrite (IH i H); reflexivity.
Qed.

Lemma marks_set squares i m :
  get squares i = Null -> marks (set squares i (Str m)) = S (marks squares).
Proof.
  intros H. apply get_Null_lookup in H.
  rewrite set_in_range by (apply lookup_lt_is_Some; eauto).
  apply marks_insert. exact H.
Qed.

Lemma marks_le_length squares : marks squares <= length squares.
Proof. unfold marks. apply length_filter. Qed.


Lemma terminal_false_no_line squares :
  terminal squares = false ->
  forall l, l ∈ LINES -> ~ complete squares l.
Proof.
  unfold terminal, calculateWinner. intros Ht.
  apply orb_false_elim in Ht as [Hw _].
  destruct (calculateWinner_loop_spec squares LINES)
    as [(j & l & m & _ & _ & Heq) | (Hnone & _)]; [|exact Hnone].
  rewrite Heq in Hw. discriminate.
Qed.

(** On a board without a complete line, a line completed by one more mark
    holds that mark. *)
Lemma new_line_is_movers squares i m l m' :
  (forall l, l ∈ LINES -> ~ complete squares l) ->
  l ∈ LINES -> holds (set squares i (Str m)) l m' -> m' = m.
Proof.
  intros Hnone Hl. destruct l as [[a b] c]. intros (Ha & Hb & Hc).
  destruct (decide (i = a)) as [<- | Hia];
    [rewrite get_set_eq in Ha; congruence|].
  destruct (decide (i = b)) as [<- | Hib];
    [rewrite get_set_eq in Hb; congruence|].
  destruct (decide (i = c)) as [<- | Hic];
    [rewrite get_set_eq in Hc; congruence|].
  rewrite get_set_ne in Ha, Hb, Hc by assumption.
  exfalso. apply (Hnone (a, b, c) Hl). exists m'. repeat split; assumption.
Qed.


(** ** The history as a record of legal play *)

Lemma render_gameOver st v :
  render st = Some v ->
  gameOver v = terminal (current v) /\
  winnerInfo v = calculateWinner (current v) /\
  isBoardFull v
    = forallb (fun c => negb (strict_eq c Null)) (current v).
Proof.
  unfold render. destruct (history st !! stepNumber st) as [cur|];
    [|discriminate].
  intros [= <-]. repeat split.
Qed.

Lemma consistent_initialState : consistent initialState.
Proof.
  split; [reflexivity|]. split; [simpl; lia|]. split; [reflexivity|].
  intros k b b' _ H. destruct k; discriminate.
Qed.

Lemma consistent_boards st :
  consistent st ->
  forall k b, history st !! k = Some b -> wellFormed b /\ marks b = k.
Proof.
  intros (H0 & _ & _ & Hsucc). induction k as [|k IH]; intros b Hb.
  - assert (b = emptyBoard) as -> by congruence.
    split; [exact emptyBoard_wellFormed | reflexivity].
  - assert (Hk : is_Some (history st !! k)).
    { apply lookup_lt_is_Some. apply lookup_lt_Some in Hb. lia. }
    destruct Hk as [b0 Hb0].
    destruct (Hsucc k b0 b Hb0 Hb) as (_ & i & Hi & Hn & ->).
    destruct (IH b0 Hb0) as [Hwf Hm]. split.
    + apply wellFormed_set; [assumption | assumption | discriminate].
    + rewrite marks_set by exact Hn. congruence.
Qed.

Lemma consistent_current st v :
  consistent st -> render st = Some v ->
  wellFormed (current v) /\ marks (current v) = stepNumber st.
Proof.
  intros Hc Hv. apply (consistent_boards st Hc).
  apply render_current. exact Hv.
Qed.

Lemma consistent_length st :
  consistent st -> length (history st) <= 10 /\ stepNumber st <= 9.
Proof.
  intros Hc. assert (Hlen : length (history st) <= 10).
  { destruct (decide (length (history st) <= 10)) as [H|H]; [exact H|].
    assert (Hl : is_Some (history st !! 10))
      by (apply lookup_lt_is_Some; lia).
    destruct Hl as [b Hb].
    destruct (consistent_boards st Hc 10 b Hb) as [[Hlen _] Hm].
    pose proof (marks_le_length b). lia. }
  split; [exact Hlen|]. destruct Hc as (_ & Hs & _). lia.
Qed.

(** The invariant only reads the history, the pointer, the turn and the
    starting player. *)
Lemma consistent_ext st st' :
  history st' = history st -> stepNumber st' = stepNumber st ->
  xIsNext st' = xIsNext st -> startingPlayer st' = startingPlayer st ->
  consistent st -> consistent st'.
Proof.
  unfold consistent, turn_ok, nextMark. intros -> -> -> ->. auto.
Qed.

Lemma handlePlay_consistent st v index :
  consistent st -> render st = Some v -> index < 9 ->
  consistent (handlePlay st v index).
Proof.
  intros Hc Hv Hidx.
  destruct (truthy (get (current v) index)) eqn:Ht.
  { rewrite handlePlay_rejected; auto. }
  destruct (gameOver v) eqn:Hg.
  { rewrite handlePlay_rejected; auto. }
  destruct (consistent_current st v Hc Hv) as [Hwf _].
  pose proof (render_current _ _ Hv) as Hcur.
  pose proof (render_in_range _ _ Hv) as Hr.
  destruct (render_gameOver _ _ Hv) as (Hgo & _ & _).
  pose proof (handlePlay_turn st v index Hv (proj1 (proj2 (proj2 Hc))))
    as Hturn.
  destruct (handlePlay_stepNumber _ _ _ Hv Ht Hg) as [Hs Hl].
  destruct Hc as (H0 & _ & Hok & Hsucc).
  assert (Hlen : length (take (stepNumber st + 1) (history st))
                 = stepNumber st + 1) by (rewrite length_take; lia).
  split; [|split; [|split]]; [| lia | exact Hturn |];
    rewrite (handlePlay_accepted _ _ _ Ht Hg) in *; cbn [history startingPlayer].
  - rewrite lookup_app_l by lia. rewrite lookup_take_lt by lia. exact H0.
  - intros k b b' Hb Hb'.
    assert (Hk : S k < stepNumber st + 2).
    { apply lookup_lt_Some in Hb'. rewrite length_app, Hlen in Hb'.
      simpl in Hb'. lia. }
    rewrite lookup_app_l in Hb by lia. rewrite lookup_take_lt in Hb by lia.
    destruct (decide (S k = stepNumber st + 1)) as [Heq | Hne].
    + rewrite lookup_app_r in Hb' by lia.
      replace (S k - length (take (stepNumber st + 1) (history st)))
        with 0 in Hb' by lia.
      injection Hb' as <-.
      assert (k = stepNumber st) as -> by lia.
      assert (b = current v) as -> by congruence.
      split; [congruence|]. exists index. split; [exact Hidx|].
      split; [apply (wellFormed_falsy _ _ Hwf Hidx); exact Ht|].
      unfold turn_ok in Hok. rewrite Hok. reflexivity.
    + rewrite lookup_app_l in Hb' by lia.
      rewrite lookup_take_lt in Hb' by lia.
      exact (Hsucc k b b' Hb Hb').
Qed.

Lemma startNewRound_consistent st arg : consistent (startNewRound st arg).
Proof.
  split; [reflexivity|]. split; [simpl; lia|].
  split; [apply startNewRound_turn|].
  intros k b b' _ H. destruct k; discriminate.
Qed.

Lemma handle_consistent st v v1 (i : Intent) :
  consistent st -> render st = Some v -> onBoard i ->
  render (handle st v i) = Some v1 ->
  consistent (handle st v i).
Proof.
  intros Hc Hv Hon Hv1. destruct i; simpl in *.
  - apply handlePlay_consistent; assumption.
  - unfold clickSquare. destruct (current v !! i) as [c|] eqn:Ei;
      [|exact Hc].
    destruct (boardDisabled st v || negb (strict_eq c Null)); [exact Hc|].
    apply handlePlay_consistent; try assumption.
    destruct (consistent_current st v Hc Hv) as [[Hlen _] _].
    apply lookup_lt_Some in Ei. lia.
  - unfold cpuTimeout. destruct (isCpuTurn v); [|exact Hc].
    destruct (chooseBestMove (current v) (nextMark st) u) as [k|] eqn:Ek;
      [|exact Hc].
    apply handlePlay_consistent; try assumption.
    apply chooseBestMove_Some_falsy in Ek as [Hk _]. exact Hk.
  - apply render_in_range in Hv1. simpl in Hv1.
    destruct Hc as (H0 & _ & _ & Hsucc).
    split; [exact H0|]. split; [exact Hv1|].
    split; [apply jumpTo_turn | exact Hsucc].
  - apply startNewRound_consistent.
  - apply startNewRound_consistent.
  - apply startNewRound_consistent.
  - apply startNewRound_consistent.
  - revert Hc. apply consistent_ext; reflexivity.
Qed.

Lemma step_consistent st (i : Intent) st' :
  consistent st -> onBoard i -> step st i = Some st' -> consistent st'.
Proof.
  intros Hc Hon Hstep.
  pose proof Hstep as Hinv.
  apply step_inv in Hinv as (v & v1 & Hv & Hv1 & _).
  apply step_frame in Hstep as (v' & Hv' & Hh & Hn & Hx & _ & Hs).
  assert (v' = v) as -> by congruence.
  apply (consistent_ext (handle st v i)); auto.
  eapply handle_consistent; eauto.
Qed.

Lemma played_consistent st : played st -> consistent st.
Proof.
  induction 1 as [|st i st' _ IH Hon Hstep];
    [exact consistent_initialState|].
  eapply step_consistent; eauto.
Qed.

Lemma played_reachable st : played st -> reachable st.
Proof.
  induction 1 as [|st i st' _ IH _ Hstep]; [constructor|].
  eapply reachable_step; eauto.
Qed.

Lemma played_run st intents st' :
  played st -> Forall onBoard intents -> run st intents = Some st' ->
  played st'.
Proof.
  revert st. induction intents as [|i rest IH]; simpl; intros st Hp Hall.
  - intros [= <-]. exact Hp.
  - apply Forall_cons in Hall as [Hi Hall].
    destruct (step st i) as [st1|] eqn:E; [|discriminate].
    apply IH; [|exact Hall]. eapply played_step; eauto.
Qed.

(** ** Turns of the component *)

Lemma step_same st v (i : Intent) :
  render st = Some v -> handle st v i = st -> step st i = Some st.
Proof.
  intros Hv Hh. unfold step. rewrite Hv, Hh, Hv.
  rewrite bool_decide_eq_true_2; reflexivity.
Qed.

(** A move is [handlePlay] on some cell, or nothing. *)
Lemma handle_move st v (i : Intent) :
  isMove i ->
  handle st v i = st \/ exists index, handle st v i = handlePlay st v index.
Proof.
  destruct i; simpl; try contradiction; intros _.
  - right. eauto.
  - unfold clickSquare. destruct (current v !! i); [|auto].
    destruct (boardDisabled st v || negb (strict_eq v0 Null)); eauto.
  - unfold cpuTimeout. destruct (isCpuTurn v); [|auto].
    destruct (chooseBestMove (current v) (nextMark st) u); eauto.
Qed.

(** Once the round is over, no move changes anything: neither
    [handlePlay], nor a click, nor the CPU timer. *)
Theorem round_over_absorbs_moves st v (i : Intent) :
  render st = Some v -> gameOver v = true -> isMove i ->
  step st i = Some st.
Proof.
  intros Hv Hg Hm. apply (step_same st v i Hv).
  destruct (handle_move st v i Hm) as [H | [index H]]; [exact H|].
  rewrite H. apply handlePlay_rejected. auto.
Qed.

Lemma render_wonState :
  render wonState
  = Some {| current :=
              [Str X; Str X; Str X; Str O; Str O; Null; Null; Null; Null];
            winnerInfo := {| winner := Str X; line := Some (0, 1, 2) |};
            isBoardFull := false;
            gameOver := true;
            isCpuTurn := false |}.
Proof. reflexivity. Qed.

Lemma round_over_absorbs_moves_witness :
  step wonState (Click 5) = Some wonState.
Proof.
  exact (round_over_absorbs_moves wonState _ (Click 5)
           render_wonState eq_refl I).
Defined.

(** A move on a cell that already holds a mark changes nothing, whether
    it comes through [handlePlay] or through a click. *)
Theorem occupied_cell_rejects_move st v index :
  render st = Some v -> truthy (get (current v) index) = true ->
  step st (Play index) = Some st /\ step st (Click index) = Some st.
Proof.
  intros Hv Ht. split; apply (step_same st v _ Hv); simpl.
  - apply handlePlay_rejected. auto.
  - unfold clickSquare. destruct (current v !! index) as [c|]; [|reflexivity].
    destruct (boardDisabled st v || negb (strict_eq c Null)); [reflexivity|].
    apply handlePlay_rejected. auto.
Qed.

Lemma occupied_cell_rejects_move_witness :
  step rewoundState (Play 0) = Some rewoundState /\
  step rewoundState (Click 0) = Some rewoundState.
Proof.
  exact (occupied_cell_rejects_move rewoundState rewoundView 0
           eq_refl eq_refl).
Defined.

(** *** The score board *)

Lemma handle_scores st v (i : Intent) :
  i <> ResetMatch -> scores (handle st v i) = scores st.
Proof.
  intros Hne. destruct i; simpl; try reflexivity; try contradiction.
  - unfold handlePlay.
    destruct (truthy (get (current v) index) || gameOver v); reflexivity.
  - unfold clickSquare. destruct (current v !! i); [|reflexivity].
    destruct (boardDisabled st v || negb (strict_eq v0 Null)); [reflexivity|].
    unfold handlePlay.
    destruct (truthy (get (current v) i) || gameOver v); reflexivity.
  - unfold cpuTimeout. destruct (isCpuTurn v); [|reflexivity].
    destruct (chooseBestMove (current v) (nextMark st) u); [|reflexivity].
    unfold handlePlay.
    destruct (truthy (get (current v) n) || gameOver v); reflexivity.
Qed.

Lemma bumpScore_total w s :
  totalScore (bumpScore w s) = totalScore s + 1 /\
  scoreX s <= scoreX (bumpScore w s) /\
  scoreO s <= scoreO (bumpScore w s) /\
  draws s <= draws (bumpScore w s).
Proof.
  unfold bumpScore, totalScore.
  destruct (strict_eq w (Str X)); [simpl; lia|].
  destruct (strict_eq w (Str O)); simpl; lia.
Qed.

(** Short of a match reset, no counter of the score board ever goes
    down, and one turn of the component adds at most one point in all. *)
Theorem scores_never_decrease st (i : Intent) st' :
  step st i = Some st' -> i <> ResetMatch ->
  scoreX (scores st) <= scoreX (scores st') /\
  scoreO (scores st) <= scoreO (scores st') /\
  draws (scores st) <= draws (scores st') /\
  totalScore (scores st') <= totalScore (scores st) + 1.
Proof.
  intros Hstep Hne.
  apply step_inv in Hstep as (v & v1 & Hv & Hv1 & [-> | ->]).
  - rewrite (handle_scores st v i Hne). lia.
  - unfold scoreEffect. destruct (negb (gameOver v1)).
    + rewrite (handle_scores st v i Hne). lia.
    + simpl. rewrite (handle_scores st v i Hne).
      pose proof (bumpScore_total (winner (winnerInfo v1)) (scores st)). lia.
Qed.

Lemma scores_never_decrease_witness :
  1 <= 2 /\ 0 <= 0 /\ 0 <= 0 /\ 2 <= 1 + 1.
Proof.
  exact (scores_never_decrease (jumpTo wonState 4) (Jump 5)
           (setScores wonState {| scoreX := 2; scoreO := 0; draws := 0 |})
           eq_refl ltac:(discriminate)).
Defined.

(** *** Accepted moves *)

(** What a whole turn makes of an accepted [handlePlay]. *)
Lemma step_accepted st v (i : Intent) index :
  render st = Some v ->
  handle st v i = handlePlay st v index ->
  truthy (get (current v) index) = false -> gameOver v = false ->
  exists st' v',
    step st i = Some st' /\ render st' = Some v' /\
    history st' = take (stepNumber st + 1) (history st)
                    ++ [set (current v) index (Str (nextMark st))] /\
    stepNumber st' = stepNumber st + 1 /\
    xIsNext st' = negb (xIsNext st) /\
    mode st' = mode st /\ startingPlayer st' = startingPlayer st /\
    current v' = set (current v) index (Str (nextMark st)) /\
    gameOver v' = terminal (current v') /\
    winnerInfo v' = calculateWinner (current v') /\
    scores st' = if gameOver v'
                 then bumpScore (winner (winnerInfo v')) (scores st)
                 else scores st.
Proof.
  intros Hv Hh Ht Hg.
  pose proof (render_in_range _ _ Hv) as Hr.
  destruct (handlePlay_stepNumber _ _ _ Hv Ht Hg) as [Hs Hl].
  set (next := set (current v) index (Str (nextMark st))).
  assert (Hnext : history (handlePlay st v index)
                    !! stepNumber (handlePlay st v index) = Some next).
  { rewrite Hs. rewrite (handlePlay_accepted _ _ _ Ht Hg). cbn [history].
    rewrite lookup_app_r by (rewrite length_take; lia).
    rewrite length_take.
    replace (stepNumber st + 1
             - (stepNumber st + 1) `min` length (history st)) with 0 by lia.
    reflexivity. }
  destruct (render_board _ _ Hnext) as (v1 & Hv1 & Hc1 & Hw1 & Hg1).
  assert (Hfields :
            history (handlePlay st v index)
              = take (stepNumber st + 1) (history st) ++ [next] /\
            xIsNext (handlePlay st v index) = negb (xIsNext st) /\
            mode (handlePlay st v index) = mode st /\
            startingPlayer (handlePlay st v index) = startingPlayer st /\
            scores (handlePlay st v index) = scores st).
  { rewrite (handlePlay_accepted _ _ _ Ht Hg). repeat split. }
  destruct Hfields as (Fh & Fx & Fm & Fs & Fsc).
  assert (Hg1' : gameOver v1 = terminal (current v1)) by congruence.
  assert (Hw1' : winnerInfo v1 = calculateWinner (current v1)) by congruence.
  unfold step. rewrite Hv, Hh, Hv1.
  case_bool_decide as Hd.
  - exists (handlePlay st v index), v1.
    assert (Hgo : gameOver v1 = false).
    { unfold scoreDeps in Hd. congruence. }
    repeat split; auto; try congruence; try (rewrite Hgo; exact Fsc).
  - destruct (gameOver v1) eqn:Hgo.
    + exists (setScores (handlePlay st v index)
                (bumpScore (winner (winnerInfo v1)) (scores st))), v1.
      unfold scoreEffect. rewrite Hgo, Fsc. cbn [negb].
      split; [reflexivity|]. split; [exact (render_setScores _ _ _ Hv1)|].
      repeat split; auto; try congruence; try (rewrite Hgo; reflexivity).
    + exists (handlePlay st v index), v1.
      rewrite (scoreEffect_in_progress _ _ Hgo).
      repeat split; auto; try congruence; try (rewrite Hgo; exact Fsc).
Qed.



(** *** Undoing a move by time travel *)

Lemma nextMark_inj st st' : nextMark st = nextMark st' -> xIsNext st = xIsNext st'.
Proof. unfold nextMark. destruct (xIsNext st), (xIsNext st'); congruence. Qed.

(** After an accepted move from step [s], a jump back to [s] shows the
    board and the turn as they were before the move, adds nothing to the
    score, and keeps the move in the history. *)
Theorem jump_back_undoes_move st v index :
  reachable st -> render st = Some v ->
  truthy (get (current v) index) = false -> gameOver v = false ->
  exists st1 st2 v2,
    step st (Play index) = Some st1 /\
    step st1 (Jump (stepNumber st)) = Some st2 /\
    render st2 = Some v2 /\
    current v2 = current v /\ gameOver v2 = false /\
    stepNumber st2 = stepNumber st /\ xIsNext st2 = xIsNext st /\
    scores st2 = scores st1 /\
    history st2 = history st1 /\
    history st2 !! (stepNumber st + 1)
      = Some (set (current v) index (Str (nextMark st))).
Proof.
  intros Hreach Hv Ht Hg.
  pose proof (reachable_turn_ok st Hreach) as Hok.
  pose proof (render_in_range _ _ Hv) as Hr.
  pose proof (render_current _ _ Hv) as Hcur.
  destruct (render_gameOver _ _ Hv) as (Hgo & _ & _).
  destruct (step_accepted st v (Play index) index Hv eq_refl Ht Hg)
    as (st1 & v1 & Hstep1 & Hv1 & Hh1 & Hs1 & Hx1 & _ & Hsp1 & _).
  assert (Hlen : length (take (stepNumber st + 1) (history st))
                 = stepNumber st + 1) by (rewrite length_take; lia).
  assert (Hback : history (jumpTo st1 (stepNumber st))
                    !! stepNumber (jumpTo st1 (stepNumber st))
                  = Some (current v)).
  { cbn [jumpTo history stepNumber]. rewrite Hh1.
    rewrite lookup_app_l by lia. rewrite lookup_take_lt by lia. exact Hcur. }
  destruct (render_board _ _ Hback) as (v2 & Hv2 & Hc2 & _ & Hg2).
  rewrite <- Hgo, Hg in Hg2.
  exists st1, (jumpTo st1 (stepNumber st)), v2.
  split; [exact Hstep1|]. split.
  { unfold step. rewrite Hv1. cbn [handle]. rewrite Hv2.
    case_bool_decide; [reflexivity|].
    rewrite (scoreEffect_in_progress _ _ Hg2). reflexivity. }
  split; [exact Hv2|]. split; [exact Hc2|]. split; [exact Hg2|].
  split; [reflexivity|]. split.
  { apply nextMark_inj.
    pose proof (jumpTo_turn st1 (stepNumber st)) as Hj.
    unfold turn_ok in Hj, Hok. rewrite Hj, Hok.
    cbn [jumpTo startingPlayer stepNumber]. rewrite Hsp1. reflexivity. }
  split; [reflexivity|]. split; [reflexivity|].
  cbn [jumpTo history]. rewrite Hh1.
  rewrite lookup_app_r by lia. rewrite Hlen, Nat.sub_diag. reflexivity.
Qed.

Lemma jump_back_undoes_move_witness :
  exists st1 st2 v2,
    step rewoundState (Play 2) = Some st1 /\
    step st1 (Jump 1) = Some st2 /\
    render st2 = Some v2 /\
    current v2 = [Str X; Null; Null; Null; Null; Null; Null; Null; Null] /\
    gameOver v2 = false /\
    stepNumber st2 = 1 /\ xIsNext st2 = false /\
    scores st2 = scores st1 /\
    history st2 = history st1 /\
    history st2 !! 2
      = Some [Str X; Null; Str O; Null; Null; Null; Null; Null; Null].
Proof.
  exact (jump_back_undoes_move rewoundState rewoundView 2
           reachable_rewoundState eq_refl eq_refl eq_refl).
Defined.

(** ** What play on the board guarantees *)

Lemma played_rewoundState : played rewoundState.
Proof.
  apply (played_run initialState [Play 0; Play 4; Play 8; Jump 1]).
  - constructor.
  - repeat constructor; simpl; lia.
  - reflexivity.
Qed.

(** The history starts from the empty board, and each snapshot is the one
    before it with exactly one cell changed: a cell that was empty now
    holds the mark of the player whose turn it was. *)
Theorem history_records_legal_play st :
  played st ->
  history st !! 0 = Some emptyBoard /\
  forall k b b',
    history st !! k = Some b -> history st !! (S k) = Some b' ->
    exists i,
      i < 9 /\ get b i = Null /\
      get b' i = Str (turnOf (startingPlayer st) k) /\
      (forall j, j <> i -> get b' j = get b j) /\
      length b' = length b.
Proof.
  intros Hp. destruct (played_consistent st Hp) as (H0 & Hr & Hok & Hsucc).
  split; [exact H0|]. intros k b b' Hb Hb'.
  destruct (Hsucc k b b' Hb Hb') as (_ & i & Hi & Hn & ->).
  destruct (consistent_boards st (played_consistent st Hp) k b Hb)
    as [[Hlen _] _].
  exists i. split; [exact Hi|]. split; [exact Hn|].
  split; [apply get_set_eq|]. split.
  - intros j Hj. apply get_set_ne. congruence.
  - apply length_set_in_range. lia.
Qed.

Lemma history_records_legal_play_witness :
  history rewoundState !! 0 = Some emptyBoard /\
  forall k b b',
    history rewoundState !! k = Some b ->
    history rewoundState !! (S k) = Some b' ->
    exists i,
      i < 9 /\ get b i = Null /\
      get b' i = Str (turnOf X k) /\
      (forall j, j <> i -> get b' j = get b j) /\
      length b' = length b.
Proof. exact (history_records_legal_play rewoundState played_rewoundState). Defined.

(** Every snapshot is a board of nine cells, each [null], ['X'] or
    ['O'], and snapshot [k] holds exactly [k] marks; so a history never
    has more than ten snapshots. *)
Theorem snapshots_count_marks st :
  played st ->
  (forall k b, history st !! k = Some b -> wellFormed b /\ marks b = k) /\
  length (history st) <= 10 /\ stepNumber st <= 9.
Proof.
  intros Hp. pose proof (played_consistent st Hp) as Hc.
  split; [apply consistent_boards; exact Hc | apply consistent_length; exact Hc].
Qed.

Lemma snapshots_count_marks_witness :
  (forall k b, history rewoundState !! k = Some b ->
               wellFormed b /\ marks b = k) /\
  4 <= 10 /\ 1 <= 9.
Proof. exact (snapshots_count_marks rewoundState played_rewoundState). Defined.

(** Only the last snapshot of a history can be terminal: play never
    continues from a board with a complete line or without an empty
    cell. *)
Theorem only_last_snapshot_terminal st k b :
  played st ->
  history st !! k = Some b -> S k < length (history st) ->
  terminal b = false.
Proof.
  intros Hp Hb Hk. destruct (played_consistent st Hp) as (_ & _ & _ & Hsucc).
  apply lookup_lt_is_Some_2 in Hk as [b' Hb'].
  exact (proj1 (Hsucc k b b' Hb Hb')).
Qed.

Lemma only_last_snapshot_terminal_witness :
  terminal [Str X; Null; Null; Null; Str O; Null; Null; Null; Null] = false.
Proof.
  apply (only_last_snapshot_terminal rewoundState 2 _ played_rewoundState).
  - reflexivity.
  - simpl. lia.
Defined.

(** No snapshot shows complete lines of both players, and a complete line
    holds the mark of the player who made the last move of the
    snapshot. *)
Theorem complete_lines_belong_to_last_mover st k b l m :
  played st -> history st !! k = Some b ->
  l ∈ LINES -> holds b l m ->
  (exists k0, k = S k0 /\ m = turnOf (startingPlayer st) k0) /\
  (forall l' m', l' ∈ LINES -> holds b l' m' -> m' = m).
Proof.
  intros Hp Hb Hl Hh.
  destruct (played_consistent st Hp) as (H0 & _ & _ & Hsucc).
  destruct k as [|k0].
  - exfalso. assert (b = emptyBoard) as -> by congruence.
    revert l Hl Hh. apply (LINES_cases (fun l => holds emptyBoard l m -> False));
      intros (H & _); discriminate.
  - assert (Hk : is_Some (history st !! k0)).
    { apply lookup_lt_is_Some. apply lookup_lt_Some in Hb. lia. }
    destruct Hk as [b0 Hb0].
    destruct (Hsucc k0 b0 b Hb0 Hb) as (Ht & i & _ & _ & ->).
    pose proof (terminal_false_no_line _ Ht) as Hnone.
    pose proof (new_line_is_movers _ _ _ _ _ Hnone Hl Hh) as ->.
    split; [eauto|].
    intros l' m' Hl' Hh'. exact (new_line_is_movers _ _ _ _ _ Hnone Hl' Hh').
Qed.

Lemma complete_lines_belong_to_last_mover_witness :
  (exists k0, 5 = S k0 /\ X = turnOf X k0) /\
  (forall l' m', l' ∈ LINES ->
     holds [Str X; Str X; Str X; Str O; Str O; Null; Null; Null; Null] l' m' ->
     m' = X).
Proof.
  apply (complete_lines_belong_to_last_mover wonState 5 _ (0, 1, 2) X).
  - apply (played_run initialState xWinsTopRow).
    + constructor.
    + repeat constructor; simpl; lia.
    + reflexivity.
  - reflexivity.
  - apply list_elem_of_In. simpl. auto.
  - repeat split.
Defined.




(** ** The computer's turn *)

Lemma render_isCpuTurn st v :
  render st = Some v ->
  isCpuTurn v
    = bool_decide (mode st = CPU) && negb (gameOver v) && cpuToMove st.
Proof.
  unfold render. destruct (history st !! stepNumber st); [|discriminate].
  intros [= <-]. reflexivity.
Qed.

Lemma cpuToMove_nextMark st :
  cpuToMove st = true <-> nextMark st = opponent_of (startingPlayer st).
Proof.
  unfold cpuToMove, nextMark.
  destruct (startingPlayer st), (xIsNext st); simpl; split;
    congruence.
Qed.



Lemma forallb_false_Null squares :
  forallb (fun c => negb (strict_eq c Null)) squares = false ->
  exists k, k < length squares /\ get squares k = Null.
Proof.
  induction squares as [|c rest IH]; simpl; [discriminate|].
  destruct c; simpl.
  - intros _. exists 0. split; [lia | reflexivity].
  - intros H. destruct (IH H) as (k & Hk & Hn).
    exists (S k). split; [lia | exact Hn].
  - intros H. destruct (IH H) as (k & Hk & Hn).
    exists (S k). split; [lia | exact Hn].
Qed.

(** When it is the computer's turn and its timer fires, the computer
    always moves: [chooseBestMove] finds an empty cell, the move is
    accepted and places the non-starting mark there, and the turn passes
    to the human. *)
Theorem cpu_timer_always_moves st v u :
  played st -> render st = Some v -> isCpuTurn v = true ->
  exists k st' v',
    chooseBestMove (current v) (nextMark st) u = Some k /\
    k < 9 /\ get (current v) k = Null /\
    step st (CpuTimeout u) = Some st' /\ render st' = Some v' /\
    current v' = set (current v) k (Str (opponent_of (startingPlayer st))) /\
    stepNumber st' = stepNumber st + 1 /\
    isCpuTurn v' = false.
Proof.
  intros Hp Hv Hcpu.
  destruct (consistent_current st v (played_consistent st Hp) Hv)
    as [Hwf _].
  pose proof (render_isCpuTurn _ _ Hv) as Hdef. rewrite Hcpu in Hdef.
  symmetry in Hdef. apply andb_prop in Hdef as [Hdef Hmv].
  apply andb_prop in Hdef as [_ Hg]. apply negb_true_iff in Hg.
  destruct (render_gameOver _ _ Hv) as (Hgo & _ & Hfull).
  assert (Hnf : isBoardFull v = false).
  { rewrite Hgo in Hg. unfold terminal in Hg.
    apply orb_false_elim in Hg as [_ Hg]. rewrite Hfull. exact Hg. }
  rewrite Hfull in Hnf.
  destruct (forallb_false_Null _ Hnf) as (j & Hj & Hjn).
  destruct (chooseBestMove (current v) (nextMark st) u) as [k|] eqn:Ek.
  2:{ exfalso.
      apply (proj1 (chooseBestMove_None _ _ _ Hwf)) with (i := j) in Ek;
        [contradiction|].
      destruct Hwf as [Hlen _]. lia. }
  pose proof (chooseBestMove_Some_falsy _ _ _ _ Ek) as [Hk Hf].
  assert (Hh : handle st v (CpuTimeout u) = handlePlay st v k).
  { simpl. unfold cpuTimeout. rewrite Hcpu, Ek. reflexivity. }
  destruct (step_accepted st v (CpuTimeout u) k Hv Hh Hf Hg)
    as (st' & v' & Hstep & Hv' & _ & Hs & Hx & _ & Hsp & Hc & _).
  exists k, st', v'. split; [reflexivity|]. split; [exact Hk|].
  split; [apply (wellFormed_falsy _ _ Hwf Hk); exact Hf|].
  split; [exact Hstep|]. split; [exact Hv'|]. split.
  { rewrite Hc. apply cpuToMove_nextMark in Hmv. rewrite Hmv. reflexivity. }
  split; [exact Hs|].
  rewrite (render_isCpuTurn _ _ Hv').
  assert (Hno : cpuToMove st' = false).
  { unfold cpuToMove in *. rewrite Hx, Hsp.
    destruct (startingPlayer st), (xIsNext st); simpl in *; congruence. }
  rewrite Hno. apply andb_false_r.
Qed.

Lemma cpu_timer_always_moves_witness :
  exists k st' v',
    chooseBestMove [Null; Null; Null; Null; Str X; Null; Null; Null; Null]
                   O (mkRandom 1 1) = Some k /\
    k < 9 /\
    get [Null; Null; Null; Null; Str X; Null; Null; Null; Null] k = Null /\
    step cpuThinking (CpuTimeout (mkRandom 1 1)) = Some st' /\
    render st' = Some v' /\
    current v'
      = set [Null; Null; Null; Null; Str X; Null; Null; Null; Null] k (Str O) /\
    stepNumber st' = 2 /\
    isCpuTurn v' = false.
Proof.
  apply (cpu_timer_always_moves cpuThinking
           {| current := [Null; Null; Null; Null; Str X; Null; Null; Null; Null];
              winnerInfo := {| winner := Null; line := None |};
              isBoardFull := false;
              gameOver := false;
              isCpuTurn := true |} (mkRandom 1 1)).
  - apply (played_run initialState [SetMode CPU; Click 4]).
    + constructor.
    + repeat constructor.
    + reflexivity.
  - reflexivity.
  - reflexivity.
Defined.

(** ** What the heuristic achieves *)

(** On a board without a complete line, when some empty cell completes a
    line for the player, [chooseBestMove] returns such a cell, and the
    board with the player's mark there is won by the player. *)
Theorem chooseBestMove_takes_win squares player u :
  (forall l, l ∈ LINES -> ~ complete squares l) ->
  (exists j, completes squares player j) ->
  exists k,
    chooseBestMove squares player u = Some k /\
    completes squares player k /\
    winner (calculateWinner (set squares k (Str player))) = Str player.
Proof.
  intros Hnone Hex.
  destruct (first_candidate_completes squares player) as [Hsound Hiff].
  apply Hiff in Hex as [k Hk].
  exists k. split; [|split; [exact (Hsound k Hk)|]].
  - unfold chooseBestMove, findWinningMove.
    rewrite findWinningMove_loop_first_candidate, Hk. reflexivity.
  - destruct (Hsound k Hk) as (_ & l & Hl & _ & Hh).
    unfold calculateWinner.
    destruct (calculateWinner_loop_spec (set squares k (Str player)) LINES)
      as [(j & l' & m' & (Hj & _ & _) & Hh' & ->) | (Hno & _)].
    + simpl. f_equal.
      apply (new_line_is_movers squares k player l' m' Hnone);
        [apply list_elem_of_lookup; eauto | exact Hh'].
    + exfalso. apply (Hno l Hl). exists player. exact Hh.
Qed.

Lemma chooseBestMove_takes_win_witness :
  exists k,
    chooseBestMove
      [Str X; Str X; Null; Str O; Str O; Null; Null; Null; Null] O
      (mkRandom 0 0) = Some k /\
    completes [Str X; Str X; Null; Str O; Str O; Null; Null; Null; Null] O k /\
    winner (calculateWinner
              (set [Str X; Str X; Null; Str O; Str O; Null; Null; Null; Null]
                   k (Str O))) = Str O.
Proof.
  apply chooseBestMove_takes_win.
  - apply (terminal_false_no_line
             [Str X; Str X; Null; Str O; Str O; Null; Null; Null; Null]).
    reflexivity.
  - exists 5. split; [reflexivity|]. exists (3, 4, 5).
    split; [apply list_elem_of_In; simpl; auto|].
    split; [apply list_elem_of_In; simpl; auto|]. repeat split.
Defined.

(** When the player cannot win at once but some empty cell would complete
    a line for the opponent, [chooseBestMove] returns such a cell: it
    takes a cell on which the opponent would have won. *)
Theorem chooseBestMove_blocks squares player u :
  (forall j, ~ completes squares player j) ->
  (exists j, completes squares (opponent_of player) j) ->
  exists k,
    chooseBestMove squares player u = Some k /\
    completes squares (opponent_of player) k.
Proof.
  intros Hnowin Hex.
  destruct (first_candidate_completes squares player) as [Hs1 Hiff1].
  destruct (first_candidate_completes squares (opponent_of player))
    as [Hs2 Hiff2].
  apply Hiff2 in Hex as [k Hk].
  exists k. split; [|exact (Hs2 k Hk)].
  unfold chooseBestMove, findWinningMove.
  rewrite !findWinningMove_loop_first_candidate, Hk.
  destruct (first_candidate LINES squares player) as [w|] eqn:Ew;
    [|reflexivity].
  exfalso. exact (Hnowin w (Hs1 w eq_refl)).
Qed.

Lemma chooseBestMove_blocks_witness :
  exists k,
    chooseBestMove
      [Str O; Str O; Null; Str X; Null; Null; Null; Null; Null] X
      (mkRandom 0 0) = Some k /\
    completes [Str O; Str O; Null; Str X; Null; Null; Null; Null; Null] O k.
Proof.
  apply (chooseBestMove_blocks
           [Str O; Str O; Null; Str X; Null; Null; Null; Null; Null] X).
  - intros j Hj.
    assert (H : is_Some (first_candidate LINES
                [Str O; Str O; Null; Str X; Null; Null; Null; Null; Null] X)).
    { apply first_candidate_completes. eauto. }
    destruct H as [x Hx]. discriminate.
  - exists 2. split; [reflexivity|]. exists (0, 1, 2).
    split; [apply list_elem_of_In; simpl; auto|].
    split; [apply list_elem_of_In; simpl; auto|]. repeat split.
Defined.

(** ** Mode, clicks and jumps *)



(** The [disabled] flag that [Game] computes for the board is just
    [gameOver]: in no state does its CPU clause disable anything. *)
Theorem board_disabled_only_when_round_over st v :
  render st = Some v -> boardDisabled st v = gameOver v.
Proof. apply boardDisabled_is_gameOver. Qed.

Lemma board_disabled_only_when_round_over_witness :
  boardDisabled cpuThinking
    {| current := [Null; Null; Null; Null; Str X; Null; Null; Null; Null];
       winnerInfo := {| winner := Null; line := None |};
       isBoardFull := false;
       gameOver := false;
       isCpuTurn := true |} = false.
Proof. exact (board_disabled_only_when_round_over cpuThinking _ eq_refl). Defined.

(** On the boards that play produces, a click on one of the nine squares
    does exactly what [handlePlay] does on that cell, and a square is
    disabled exactly when [handlePlay] would reject the move. *)
Theorem click_is_handlePlay st v k :
  played st -> render st = Some v -> k < 9 ->
  clickSquare st v k = handlePlay st v k /\
  squareDisabled st v k = truthy (get (current v) k) || gameOver v.
Proof.
  intros Hp Hv Hk.
  destruct (consistent_current st v (played_consistent st Hp) Hv)
    as [[Hlen Hwf] _].
  specialize (Hwf k Hk).
  assert (Hl : is_Some (current v !! k))
    by (apply lookup_lt_is_Some; lia).
  destruct Hl as [c Hc].
  assert (Hget : get (current v) k = c) by (unfold get; rewrite Hc; reflexivity).
  unfold clickSquare, squareDisabled.
  rewrite Hc, Hget, (boardDisabled_is_gameOver _ _ Hv).
  rewrite Hget in Hwf.
  destruct (gameOver v) eqn:Hg.
  - simpl. rewrite handlePlay_rejected by auto.
    rewrite orb_true_r. auto.
  - destruct c as [| |m]; simpl; [auto | contradiction |].
    rewrite handlePlay_rejected; [auto|]. left. rewrite Hget. reflexivity.
Qed.

Lemma click_is_handlePlay_witness :
  clickSquare rewoundState rewoundView 2 = handlePlay rewoundState rewoundView 2 /\
  squareDisabled rewoundState rewoundView 2 = false.
Proof.
  exact (click_is_handlePlay rewoundState rewoundView 2
           played_rewoundState eq_refl ltac:(lia)).
Defined.

(** A jump succeeds exactly when its target is a step of the history;
    any other target leaves [history[stepNumber]] undefined and the next
    render fails. *)
Theorem jump_succeeds_iff_in_range st k :
  is_Some (render st) ->
  (k < length (history st) <-> is_Some (step st (Jump k))).
Proof. apply step_Jump. Qed.

Lemma jump_succeeds_iff_in_range_witness :
  7 < length (history wonState) <-> is_Some (step wonState (Jump 7)).
Proof.
  apply (jump_succeeds_iff_in_range wonState 7). eexists. reflexivity.
Defined.

(** ** The random pick *)

(** On a non-empty array [randomPick] returns one of its elements (never
    [undefined]), and each element is returned for some random number. *)
Theorem randomPick_returns_element u arr :
  arr <> [] ->
  (exists k, randomPick u arr = Some k /\ k ∈ arr) /\
  (forall k, k ∈ arr -> exists u', randomPick u' arr = Some k).
Proof.
  intros Hne. split; [apply randomPick_elem; exact Hne|].
  apply randomPick_onto.
Qed.

Lemma randomPick_returns_element_witness :
  (exists k, randomPick (mkRandom 2 1) [0; 6; 8] = Some k /\ k ∈ [0; 6; 8]) /\
  (forall k, k ∈ [0; 6; 8] -> exists u', randomPick u' [0; 6; 8] = Some k).
Proof.
  apply (randomPick_returns_element (mkRandom 2 1) [0; 6; 8]). discriminate.
Defined.

(** ** What is displayed *)

Lemma calculateWinner_winner_cases squares :
  (winner (calculateWinner squares) = Null /\
   line (calculateWinner squares) = None)
  \/ exists m l, winner (calculateWinner squares) = Str m /\
                 line (calculateWinner squares) = Some l /\
                 l ∈ LINES /\ holds squares l m.
Proof.
  unfold calculateWinner.
  destruct (calculateWinner_loop_spec squares LINES)
    as [(j & l & m & (Hj & _ & _) & Hh & ->) | (_ & ->)]; [right | left; auto].
  exists m, l. repeat split; auto. apply list_elem_of_lookup. eauto.
Qed.

(** The status line names the winner exactly when [calculateWinner] finds
    one, says "Draw" exactly when there is no winner and the board is
    full, and otherwise announces the player to move, tagged "(CPU)"
    exactly when the CPU timer is running and "(You)" on the human's turn
    against the computer. *)
Theorem status_tells_outcome st v :
  render st = Some v ->
  (forall w, status st v = "Winner: " +:+ markString w
             <-> winner (winnerInfo v) = Str w) /\
  (status st v = "Draw"
   <-> winner (winnerInfo v) = Null /\ isBoardFull v = true) /\
  (gameOver v = false ->
   status st v
   = "Next: " +:+ markString (nextMark st)
       +:+ (if isCpuTurn v then " (CPU)"
            else if bool_decide (mode st = CPU) then " (You)" else "")).
Proof.
  intros Hv.
  destruct (render_gameOver _ _ Hv) as (Hgo & Hw & Hfull).
  pose proof (render_isCpuTurn _ _ Hv) as Hcpu.
  unfold terminal in Hgo. rewrite <- Hw, <- Hfull in Hgo.
  assert (Hcases : winner (winnerInfo v) = Null
                   \/ exists m, winner (winnerInfo v) = Str m).
  { rewrite Hw.
    destruct (calculateWinner_winner_cases (current v))
      as [[H _] | (m & _ & H & _)]; eauto. }
  unfold status. destruct Hcases as [Hn | [m Hm]].
  - rewrite Hn. rewrite Hn in Hgo. simpl in Hgo.
    split; [|split].
    + intros w. destruct (isBoardFull v), w, (nextMark st); simpl;
        split; discriminate.
    + destruct (isBoardFull v); [tauto|].
      destruct (nextMark st); simpl; split;
        [discriminate | intros [_ H]; discriminate
        | discriminate | intros [_ H]; discriminate].
    + intros Hg. rewrite Hg in Hgo. rewrite <- Hgo.
      rewrite Hcpu, Hg. unfold cpuToMove, nextMark.
      destruct (bool_decide (mode st = CPU)); [|reflexivity].
      destruct (startingPlayer st), (xIsNext st); reflexivity.
  - rewrite Hm. rewrite Hm in Hgo. simpl in Hgo.
    split; [|split].
    + intros w. destruct m, w; split; intros H;
        first [reflexivity | discriminate H | vm_compute in H; discriminate H].
    + destruct m; simpl; split;
        [discriminate | intros [H _]; discriminate
        | discriminate | intros [H _]; discriminate].
    + congruence.
Qed.

Lemma status_tells_outcome_witness :
  (forall w, status wonState
               {| current :=
                    [Str X; Str X; Str X; Str O; Str O; Null; Null; Null; Null];
                  winnerInfo := {| winner := Str X; line := Some (0, 1, 2) |};
                  isBoardFull := false;
                  gameOver := true;
                  isCpuTurn := false |} = "Winner: " +:+ markString w
             <-> Str X = Str w) /\
  (status wonState
     {| current :=
          [Str X; Str X; Str X; Str O; Str O; Null; Null; Null; Null];
        winnerInfo := {| winner := Str X; line := Some (0, 1, 2) |};
        isBoardFull := false;
        gameOver := true;
        isCpuTurn := false |} = "Draw"
   <-> Str X = Null /\ false = true) /\
  (true = false ->
   status wonState
     {| current :=
          [Str X; Str X; Str X; Str O; Str O; Null; Null; Null; Null];
        winnerInfo := {| winner := Str X; line := Some (0, 1, 2) |};
        isBoardFull := false;
        gameOver := true;
        isCpuTurn := false |}
   = "Next: " +:+ markString O +:+ "").
Proof. exact (status_tells_outcome wonState _ render_wonState). Defined.

(** The highlighted squares are those of the line [calculateWinner]
    returns: there are none without a winner, and with a winner they are
    three of the nine squares, each showing the winner's mark. *)
Theorem highlight_marks_winning_line (squares : list value) :
  (forall k, isWinningCell (line (calculateWinner squares)) k = true ->
     exists m, winner (calculateWinner squares) = Str m /\
               get squares k = Str m) /\
  (winner (calculateWinner squares) = Null ->
   forall k, isWinningCell (line (calculateWinner squares)) k = false) /\
  (forall m, winner (calculateWinner squares) = Str m ->
     length (filter (fun k => isWinningCell (line (calculateWinner squares)) k
                              = true) (seq 0 9)) = 3).
Proof.
  destruct (calculateWinner_winner_cases squares)
    as [[Hn Hl] | (m & [[a b] c] & Hm & Hl & Hin & (Ha & Hb & Hc))].
  - rewrite Hn, Hl. simpl. split; [discriminate|].
    split; [reflexivity | discriminate].
  - rewrite Hm, Hl. split; [|split; [discriminate|]].
    + intros k Hk. exists m. split; [reflexivity|].
      simpl in Hk. rewrite !orb_true_iff, !Nat.eqb_eq in Hk.
      destruct Hk as [Hk | [Hk | [Hk | Hk]]]; try discriminate;
        subst; assumption.
    + intros _ _. clear -Hin. revert Hin.
      generalize (a, b, c).
      apply (LINES_cases
               (fun l => length (filter (fun k => isWinningCell (Some l) k
                                                  = true) (seq 0 9)) = 3));
        reflexivity.
Qed.

(** [History] shows one button per snapshot; the [k]-th button jumps to
    step [k], so every jump it offers succeeds, and the active button is
    the one of the pointer. *)
Theorem history_buttons_jump_in_range st :
  is_Some (render st) ->
  length (historyButtons (history st) (stepNumber st))
    = length (history st) /\
  forall k btn,
    historyButtons (history st) (stepNumber st) !! k = Some btn ->
    onClickJump btn = k /\
    (isActive btn = true <-> k = stepNumber st) /\
    is_Some (step st (Jump (onClickJump btn))).
Proof.
  intros Hr. unfold historyButtons. split; [apply length_imap|].
  intros k btn Hk. rewrite list_lookup_imap in Hk.
  destruct (history st !! k) as [b|] eqn:Hb; [|discriminate].
  injection Hk as <-. simpl. split; [reflexivity|]. split.
  - apply bool_decide_eq_true.
  - apply (step_Jump st k Hr). apply lookup_lt_is_Some. eauto.
Qed.

Lemma history_buttons_jump_in_range_witness :
  length (historyButtons (history rewoundState) 1) = 4 /\
  forall k btn,
    historyButtons (history rewoundState) 1 !! k = Some btn ->
    onClickJump btn = k /\
    (isActive btn = true <-> k = 1) /\
    is_Some (step rewoundState (Jump (onClickJump btn))).
Proof.
  apply (history_buttons_jump_in_range rewoundState). eexists. reflexivity.
Defined.

(** ** The two marks are treated alike *)

Lemma get_swapBoard squares k :
  get (swapBoard squares) k = swapValue (get squares k).
Proof.
  unfold get, swapBoard. rewrite list_lookup_fmap.
  destruct (squares !! k); reflexivity.
Qed.

Lemma truthy_swapValue c : truthy (swapValue c) = truthy c.
Proof. destruct c; reflexivity. Qed.

Lemma strict_eq_swapValue c d :
  strict_eq (swapValue c) (swapValue d) = strict_eq c d.
Proof. destruct c as [| |[|]], d as [| |[|]]; reflexivity. Qed.

Lemma calculateWinner_loop_swap lines squares :
  calculateWinner_loop lines (swapBoard squares)
  = {| winner := swapValue (winner (calculateWinner_loop lines squares));
       line := line (calculateWinner_loop lines squares) |}.
Proof.
  induction lines as [|[[a b] c] rest IH]; [reflexivity|].
  cbn [calculateWinner_loop]. rewrite !get_swapBoard.
  rewrite truthy_swapValue, !strict_eq_swapValue.
  destruct (truthy (get squares a) && strict_eq (get squares a) (get squares b)
            && strict_eq (get squares a) (get squares c));
    [reflexivity | exact IH].
Qed.

Lemma candidate_swap squares m l :
  candidate (swapBoard squares) (opponent_of m) l = candidate squares m l.
Proof.
  destruct l as [[a b] c]. unfold candidate. rewrite !get_swapBoard.
  destruct (get squares a) as [| |[|]], (get squares b) as [| |[|]],
           (get squares c) as [| |[|]], m; reflexivity.
Qed.

Lemma first_candidate_swap lines squares m :
  first_candidate lines (swapBoard squares) (opponent_of m)
  = first_candidate lines squares m.
Proof.
  induction lines as [|l rest IH]; [reflexivity|].
  simpl. rewrite candidate_swap, IH. reflexivity.
Qed.

(** Exchanging X and O on the board exchanges them in the result of
    [calculateWinner] and leaves the line as it is; and the computer
    chooses the same cell for O on the exchanged board as for X on the
    original one (with the same random number). *)
Theorem marks_are_interchangeable
    (squares : list value) (player : mark) (u : random) :
  calculateWinner (swapBoard squares)
    = {| winner := swapValue (winner (calculateWinner squares));
         line := line (calculateWinner squares) |} /\
  chooseBestMove (swapBoard squares) (opponent_of player) u
    = chooseBestMove squares player u.
Proof.
  split; [apply calculateWinner_loop_swap|].
  unfold chooseBestMove, findWinningMove.
  rewrite !findWinningMove_loop_first_candidate.
  rewrite first_candidate_swap.
  rewrite <- (first_candidate_swap LINES squares (opponent_of player)).
  rewrite get_swapBoard, truthy_swapValue.
  rewrite (list_filter_iff
             (fun i => truthy (get (swapBoard squares) i) = false)
             (fun i => truthy (get squares i) = false) [0; 2; 6; 8])
    by (intros x; rewrite get_swapBoard, truthy_swapValue; reflexivity).
  rewrite (list_filter_iff
             (fun i => truthy (get (swapBoard squares) i) = false)
             (fun i => truthy (get squares i) = false) [1; 3; 5; 7])
    by (intros x; rewrite get_swapBoard, truthy_swapValue; reflexivity).
  reflexivity.
Qed.

(** ** Who opens a round, and jumps that change nothing *)

Lemma turnOf_opponent starter n :
  turnOf starter n = opponent_of starter <-> Nat.odd n = true.
Proof.
  unfold turnOf. rewrite <- Nat.negb_even.
  destruct (Nat.even n), starter; simpl; split; congruence.
Qed.

(** The human always opens a round: against the computer, the CPU timer
    runs exactly at the odd steps of a round that is not over. *)
Theorem cpu_moves_at_odd_steps st v :
  reachable st -> render st = Some v ->
  (isCpuTurn v = true
   <-> mode st = CPU /\ gameOver v = false /\ Nat.odd (stepNumber st) = true).
Proof.
  intros Hr Hv. pose proof (reachable_turn_ok st Hr) as Hok.
  rewrite (render_isCpuTurn _ _ Hv).
  rewrite !andb_true_iff, bool_decide_eq_true, negb_true_iff.
  rewrite cpuToMove_nextMark. unfold turn_ok in Hok. rewrite Hok.
  rewrite turnOf_opponent. tauto.
Qed.

Lemma cpu_moves_at_odd_steps_witness :
  true = true <-> CPU = CPU /\ false = false /\ Nat.odd 1 = true.
Proof.
  apply (cpu_moves_at_odd_steps cpuThinking
           {| current := [Null; Null; Null; Null; Str X; Null; Null; Null; Null];
              winnerInfo := {| winner := Null; line := None |};
              isBoardFull := false;
              gameOver := false;
              isCpuTurn := true |}).
  - apply played_reachable.
    apply (played_run initialState [SetMode CPU; Click 4]).
    + constructor.
    + repeat constructor.
    + reflexivity.
  - reflexivity.
Defined.

(** A jump to the step the pointer is on changes nothing, the score
    included. *)
Theorem jump_to_pointer_changes_nothing st :
  reachable st -> step st (Jump (stepNumber st)) = Some st.
Proof.
  intros Hr. pose proof (reachable_turn_ok st Hr) as Hok.
  destruct (reachable_renders st Hr) as [v Hv].
  apply (step_same st v _ Hv). cbn [handle].
  pose proof (jumpTo_turn st (stepNumber st)) as Hj.
  assert (Hx : xIsNext (jumpTo st (stepNumber st)) = xIsNext st).
  { apply nextMark_inj. unfold turn_ok in Hj, Hok. rewrite Hj, Hok.
    reflexivity. }
  destruct st as [h s x md sp sc]. unfold jumpTo in *. simpl in *.
  rewrite Hx. reflexivity.
Qed.

Lemma jump_to_pointer_changes_nothing_witness :
  step rewoundState (Jump 1) = Some rewoundState.
Proof.
  exact (jump_to_pointer_changes_nothing rewoundState reachable_rewoundState).
Defined.

End Further.
